(** * Trade_Journal: the block parser of [formatter.py] and the record
      store and record construction of [trading_journal.py]

    A shallow embedding of the two Python modules and the properties of
    their behaviour.

    Python [str] values are sequences of Unicode code points; a code point
    is a number in [N] and a string is a [list N].  Dictionaries are
    [gmap]s keyed by strings: what a dictionary holds is modelled, the
    order in which its keys were inserted is not.

    [parse_trade_file] is modelled from the text it has read on
    ([parse_trade_text]); opening and decoding the file are outside.  The
    parser has no raising operation left after that: each list access of
    the source stands behind a test of the length.  [insert_trade] raises
    when a named parameter is missing, and returns an [option].  The
    Of the page the warnings, the keys of the widgets, the text inputs of
    a trade with what they hold in the session state, the construction of
    the record to save, the save and the table of saved trades are
    modelled; the rendering is not. *)

From Stdlib Require Import NArith ZArith String Ascii DecimalString DecimalNat.
From stdpp Require Import base option list sorting gmap.

Local Open Scope nat_scope.

#[local] Set Warnings "-clear-no-such-hyp".

(** ** Strings *)

Abbreviation str := (list N).

(** A Rocq string literal (ASCII) as a Python string. *)
Fixpoint u (s : string) : str :=
  match s with
  | EmptyString => []
  | String a s' => N_of_ascii a :: u s'
  end.

Definition LF : N := 10%N.
Definition CR : N := 13%N.

(** The bullet separator U+00B7 (MIDDLE DOT). *)
Definition BULLET : N := 183%N.

(** [Py_UNICODE_ISSPACE]: what [str.strip()] removes and what [\s] matches
    in a [str] pattern. *)
Definition is_space (c : N) : bool :=
  ((9 <=? c) && (c <=? 13))%N || ((28 <=? c) && (c <=? 32))%N
  || (c =? 133)%N || (c =? 160)%N || (c =? 5760)%N
  || ((8192 <=? c) && (c <=? 8202))%N
  || (c =? 8232)%N || (c =? 8233)%N || (c =? 8239)%N || (c =? 8287)%N
  || (c =? 12288)%N.

(** [Py_UNICODE_ISLINEBREAK]: the line boundaries of [str.splitlines()]. *)
Definition is_linebreak (c : N) : bool :=
  ((10 <=? c) && (c <=? 13))%N || ((28 <=? c) && (c <=? 30))%N
  || (c =? 133)%N || (c =? 8232)%N || (c =? 8233)%N.

(** [s.lstrip()], [s.rstrip()], [s.strip()]. *)
Fixpoint lstrip (s : str) : str :=
  match s with
  | c :: s' => if is_space c then lstrip s' else s
  | [] => []
  end.

Definition rstrip (s : str) : str := rev (lstrip (rev s)).

Definition strip (s : str) : str := rstrip (lstrip s).

(** [s.splitlines()]: [cur] holds the characters of the line being read,
    last one first.  A [\r\n] pair is one boundary; text after the last
    boundary is a line only when it is not empty. *)
Fixpoint splitlines_go (cur : str) (s : str) : list str :=
  match s with
  | [] => match cur with [] => [] | _ => [rev cur] end
  | c :: s' =>
      if is_linebreak c then
        match s' with
        | c' :: s'' =>
            if ((c =? CR)%N && (c' =? LF)%N)%bool
            then rev cur :: splitlines_go [] s''
            else rev cur :: splitlines_go [] s'
        | [] => rev cur :: splitlines_go [] s'
        end
      else splitlines_go (c :: cur) s'
  end.

Definition splitlines (s : str) : list str := splitlines_go [] s.

(** ** The pattern [\n\s*\n+] and [re.split] *)

(** The patterns used are sequences of single-character items with greedy
    quantifiers. *)
Inductive atom : Type :=
  | Lit (c : N)      (* a literal character *)
  | Space.           (* \s *)

Inductive quant : Type :=
  | One | Star | Plus.

Abbreviation regex := (list (atom * quant)).

Definition atom_match (a : atom) (c : N) : bool :=
  match a with
  | Lit d => (c =? d)%N
  | Space => is_space c
  end.

(** Greedy repetition of [a] followed by the continuation [k]: take as many
    characters as possible, and give them back one at a time while the
    continuation fails. *)
Fixpoint greedy (a : atom) (k : str → option str) (s : str) : option str :=
  match s with
  | c :: s' =>
      if atom_match a c then
        match greedy a k s' with
        | Some r => Some r
        | None => k s
        end
      else k s
  | [] => k []
  end.

(** The backtracking matcher anchored at the start of [s]; the result is
    the text left after the match. *)
Fixpoint re_match (r : regex) (s : str) : option str :=
  match r with
  | [] => Some s
  | (a, One) :: r' =>
      match s with
      | c :: s' => if atom_match a c then re_match r' s' else None
      | [] => None
      end
  | (a, Star) :: r' => greedy a (re_match r') s
  | (a, Plus) :: r' =>
      match s with
      | c :: s' => if atom_match a c then greedy a (re_match r') s' else None
      | [] => None
      end
  end.

(** The leftmost match: the text before it and the text after it. *)
Fixpoint re_search (r : regex) (s : str) : option (str * str) :=
  match re_match r s with
  | Some rest => Some ([], rest)
  | None =>
      match s with
      | [] => None
      | c :: s' =>
          match re_search r s' with
          | Some (pre, rest) => Some (c :: pre, rest)
          | None => None
          end
      end
  end.

(** [re.split(r, s)] for a pattern without groups: the pieces between
    successive leftmost matches.  Every match of the pattern used here
    consumes at least two characters, so [length s] rounds are enough
    (lemma [re_split_fuel_enough]). *)
Fixpoint re_split_fuel (fuel : nat) (r : regex) (s : str) : list str :=
  match fuel with
  | 0 => [s]
  | S fuel' =>
      match re_search r s with
      | None => [s]
      | Some (pre, rest) => pre :: re_split_fuel fuel' r rest
      end
  end.

Definition re_split (r : regex) (s : str) : list str :=
  re_split_fuel (length s) r s.

(** [r'\n\s*\n+'] *)
Definition blank_run : regex := [(Lit LF, One); (Space, Star); (Lit LF, Plus)].

(** ** [parse_trade_file] *)

Definition labels : list str :=
  [ u "Type"; u "Position effect"; u "Time in force"; u "Submitted";
    u "Quantity"; u "Account"; u "Status"; u "Filled quantity"; u "Filled";
    u "Limit price"; u "Est cost"; u "Est regulatory fees" ].

(** [lines[i]].  The source reads [lines[i]] only behind a test that [i] is
    less than [len(lines)] (the tests are the left operands of [and], which
    does not evaluate its right operand when the left one is false, and
    [len(lines) < 3] before the positional lines), so no access raises.
    Outside the range the value here is the empty string; it is never
    used. *)
Definition line_at (lines : list str) (i : nat) : str := lines !!! i.

(** [line != label] on strings. *)
Definition str_eqb (a b : str) : bool := bool_decide (a = b).

(** The [while idx < len(lines) and lines[idx] != label: idx += 1] loop.
    The distance to the end of [lines] bounds the number of rounds. *)
Fixpoint advance (fuel : nat) (lines : list str) (label : str) (idx : nat) : nat :=
  match fuel with
  | 0 => idx
  | S fuel' =>
      if (idx <? length lines) && negb (str_eqb (line_at lines idx) label)
      then advance fuel' lines label (S idx)
      else idx
  end.

(** One round of [for label in labels]: the state is the cursor [idx] and
    the dictionary [parsed]. *)
Definition scan_label (lines : list str) (st : nat * gmap str str) (label : str)
  : nat * gmap str str :=
  let '(idx, parsed) := st in
  let idx := advance (length lines - idx) lines label idx in
  if (idx <? length lines) && str_eqb (line_at lines idx) label
     && (idx + 1 <? length lines)
  then (idx + 2, <[label := line_at lines (idx + 1)]> parsed)
  else (idx + 1, parsed).

Definition scan (lines : list str) (ls : list str) (st : nat * gmap str str)
  : nat * gmap str str :=
  fold_left (scan_label lines) ls st.

(** The usable lines of a block: steps 3 and 4 of the source. *)
Definition has_bullet (line : str) : bool := existsb (N.eqb BULLET) line.

Definition block_lines (block : str) : list str :=
  let raw_lines := map strip (splitlines block) in
  let lines := filter (λ line, line ≠ []) raw_lines in
  filter (λ line, has_bullet line = false) lines.

(** The three positional assignments of steps 5 to 7. *)
Definition positional (lines : list str) : gmap str str :=
  let parsed : gmap str str := ∅ in
  let parsed := <[u "header" := line_at lines 0]> parsed in
  let parsed := <[u "Total Cost" := line_at lines 1]> parsed in
  <[u "Quantity + Price" := line_at lines 2]> parsed.

(** The body of [for block in trade_blocks] after the lines are computed:
    [None] is the [continue]. *)
Definition parse_lines (lines : list str) : option (gmap str str) :=
  if length lines <? 3 then None
  else Some (snd (scan lines labels (3, positional lines))).

Definition parse_block (block : str) : option (gmap str str) :=
  parse_lines (block_lines block).

Definition trade_blocks (raw_text : str) : list str :=
  re_split blank_run (strip raw_text).

(** [parse_trade_file] from the text read from the file on. *)
Definition parse_trade_text (raw_text : str) : list (gmap str str) :=
  omap parse_block (trade_blocks raw_text).

(** ** The record store of [trading_journal.py] *)

(** The storage classes that occur in the table [trades]. *)
Inductive sql_value : Type :=
  | SqlNull
  | SqlInteger (n : Z)
  | SqlText (s : str).

(** The columns after [id], in the order of [CREATE TABLE] and of the
    [INSERT] statement. *)
Definition data_columns : list str :=
  [ u "header"; u "total_cost"; u "quantity_price"; u "type";
    u "position_effect"; u "time_in_force"; u "submitted"; u "quantity";
    u "account"; u "status"; u "filled_quantity"; u "filled"; u "limit_price";
    u "est_cost"; u "est_reg_fees"; u "suggestion"; u "comment"; u "saved_at" ].

Definition columns : list str := u "id" :: data_columns.

(** The table: its rows in rowid order, and the largest rowid handed out
    (the [sqlite_sequence] entry behind [AUTOINCREMENT]). *)
Record table : Type := { tbl_rows : list (list sql_value); tbl_seq : Z }.

Definition empty_table : table := {| tbl_rows := []; tbl_seq := 0 |}.

(** [init_db]: [CREATE TABLE IF NOT EXISTS]; [None] is a database file
    without the table. *)
Definition init_db (db : option table) : table := default empty_table db.

(** How a Python value of the record is bound: [None] as NULL, a [str] as
    TEXT (the columns have TEXT affinity).  The callers pass widget texts
    and the text of [datetime.now().isoformat()]. *)
Definition bind_value (v : option str) : sql_value :=
  match v with
  | None => SqlNull
  | Some s => SqlText s
  end.

(** The named parameters [:header] ... [:saved_at]; a name missing from
    the record raises, keys of the record that are not parameters are
    ignored. *)
Definition bind_params (record : gmap str (option str)) : option (list sql_value) :=
  mapM (λ name, bind_value <$> record !! name) data_columns.

(** [insert_trade]; [None] is the exception of a missing parameter.  The
    other ways in which SQLite refuses an insert are not modelled: a text
    with a surrogate code point, which has no UTF-8 encoding, and a rowid
    past 2^63-1 (see [storable] and [max_rowid]). *)
Definition insert_trade (record : gmap str (option str)) (t : table) : option table :=
  cells ← bind_params record;
  let id := (tbl_seq t + 1)%Z in
  Some {| tbl_rows := tbl_rows t ++ [SqlInteger id :: cells]; tbl_seq := id |}.

Fixpoint insert_all (records : list (gmap str (option str))) (t : table)
  : option table :=
  match records with
  | [] => Some t
  | r :: records' => t' ← insert_trade r t; insert_all records' t'
  end.

(** Comparison of TEXT values (the BINARY collation compares the UTF-8
    bytes, which orders strings as their code points do). *)
Fixpoint str_leb (a b : str) : bool :=
  match a, b with
  | [], _ => true
  | _ :: _, [] => false
  | x :: a', y :: b' =>
      if (x <? y)%N then true
      else if (y <? x)%N then false
      else str_leb a' b'
  end.

(** The order of values of different storage classes: NULL first, then
    INTEGER, then TEXT. *)
Definition sql_leb (a b : sql_value) : bool :=
  match a, b with
  | SqlNull, _ => true
  | SqlInteger _, SqlNull => false
  | SqlInteger m, SqlInteger n => (m <=? n)%Z
  | SqlInteger _, SqlText _ => true
  | SqlText _, SqlNull => false
  | SqlText _, SqlInteger _ => false
  | SqlText s, SqlText t => str_leb s t
  end.

(** [{colnames[i]: row[i] for i in range(len(colnames))}] *)
Definition row_dict (row : list sql_value) : gmap str sql_value :=
  list_to_map (zip columns row).

Definition saved_at_of (d : gmap str sql_value) : sql_value :=
  default SqlNull (d !! u "saved_at").

(** [ORDER BY saved_at DESC]: a row stands before the rows whose
    [saved_at] is not larger.  SQLite leaves the order of rows with equal
    [saved_at] open; the order in which the sort used here leaves them is
    its own, and no statement below depends on it. *)
Definition newer_first (r1 r2 : list sql_value) : Prop :=
  sql_leb (saved_at_of (row_dict r2)) (saved_at_of (row_dict r1)).

#[global] Instance newer_first_dec (r1 r2 : list sql_value) :
  Decision (newer_first r1 r2).
Proof. unfold newer_first. apply _. Defined.

Definition newer_first_dict (d1 d2 : gmap str sql_value) : Prop :=
  sql_leb (saved_at_of d2) (saved_at_of d1).

(** [fetch_all_trades] *)
Definition fetch_all_trades (t : table) : list (gmap str sql_value) :=
  let rows := merge_sort newer_first (tbl_rows t) in
  row_dict <$> rows.

(** ** The text of [saved_at] *)

(** A naive [datetime], as [datetime.now()] returns it. *)
Record datetime : Type := {
  year : N; month : N; day : N;
  hour : N; minute : N; second : N; microsecond : N }.

Definition valid_datetime (dt : datetime) : Prop :=
  (1 <= year dt <= 9999)%N ∧ (1 <= month dt <= 12)%N
  ∧ (1 <= day dt <= 31)%N ∧ (hour dt < 24)%N ∧ (minute dt < 60)%N
  ∧ (second dt < 60)%N ∧ (microsecond dt < 1000000)%N.

(** The digit [d] as a character. *)
Definition digit (d : N) : N := (48 + d)%N.

Fixpoint pow10 (w : nat) : N :=
  match w with
  | 0 => 1%N
  | S w' => (10 * pow10 w')%N
  end.

(** [n] in decimal, zero-padded to [width] digits ([%04d], [%02d],
    [%06d]), for [n] below [10 ^ width]. *)
Fixpoint pad (width : nat) (n : N) : str :=
  match width with
  | 0 => []
  | S w => digit (n / pow10 w) :: pad w (n mod pow10 w)
  end.

(** [dt.isoformat()]: [YYYY-MM-DDTHH:MM:SS], followed by [.ffffff] when
    the microsecond is not 0. *)
Definition isoformat (dt : datetime) : str :=
  pad 4 (year dt) ++ u "-" ++ pad 2 (month dt) ++ u "-" ++ pad 2 (day dt)
  ++ u "T" ++ pad 2 (hour dt) ++ u ":" ++ pad 2 (minute dt)
  ++ u ":" ++ pad 2 (second dt)
  ++ (if (microsecond dt =? 0)%N then [] else u "." ++ pad 6 (microsecond dt)).

(** [dt1 < dt2] on naive datetimes. *)
Definition earlier (dt1 dt2 : datetime) : Prop :=
  (year dt1 < year dt2 ∨ (year dt1 = year dt2 ∧
  (month dt1 < month dt2 ∨ (month dt1 = month dt2 ∧
  (day dt1 < day dt2 ∨ (day dt1 = day dt2 ∧
  (hour dt1 < hour dt2 ∨ (hour dt1 = hour dt2 ∧
  (minute dt1 < minute dt2 ∨ (minute dt1 = minute dt2 ∧
  (second dt1 < second dt2 ∨ (second dt1 = second dt2 ∧
   microsecond dt1 < microsecond dt2))))))))))))%N.

(** ** The record built for saving, [trading_journal.py] lines 132-198 *)

(** Values of a decoded JSON document. *)
#[local] Unset Elimination Schemes.
Inductive json : Type :=
  | JNull
  | JBool (b : bool)
  | JNumber (literal : str)
  | JString (s : str)
  | JArray (items : list json)
  | JObject (members : list (str * json)).
#[local] Set Elimination Schemes.

Definition expected_keys : gset str :=
  list_to_set
    [ u "header"; u "Total Cost"; u "Quantity + Price"; u "Type";
      u "Position effect"; u "Time in force"; u "Submitted"; u "Quantity";
      u "Account"; u "Status"; u "Filled quantity"; u "Filled";
      u "Limit price"; u "Est cost"; u "Est regulatory fees" ].

(** [missing = expected_keys - set(trade_data.keys())] *)
Definition missing_keys (trade_data : gmap str json) : gset str :=
  expected_keys ∖ dom trade_data.

(** [if missing: st.warning(...)]: the names the warning lists, [None]
    when there is no warning. *)
Definition missing_warning (trade_data : gmap str json) : option (gset str) :=
  let missing := missing_keys trade_data in
  if decide (missing = ∅) then None else Some missing.

(** [str(idx)] for the index of a trade in its file. *)
Definition decimal (n : nat) : str :=
  u (NilEmpty.string_of_uint (Nat.to_uint n)).

(** [prefix = f"{uploaded.name}_json_trade{idx}"] *)
Definition json_prefix (name : str) (idx : nat) : str :=
  name ++ u "_json_trade" ++ decimal idx.

(** [f"{tag}_{prefix}"], the key of a widget in the session state. *)
Definition widget_key (tag prefix : str) : str := tag ++ u "_" ++ prefix.

(** The column, the widget tag and the JSON key of each of the 15 fields:
    one entry ["column": st.session_state.get(f"tag_{prefix}",
    trade_data.get("key", ""))] of the dictionary display each. *)
Definition field_table : list (str * (str * str)) :=
  [ (u "header", (u "hdr", u "header"));
    (u "total_cost", (u "tc", u "Total Cost"));
    (u "quantity_price", (u "qp", u "Quantity + Price"));
    (u "type", (u "type", u "Type"));
    (u "position_effect", (u "peff", u "Position effect"));
    (u "time_in_force", (u "tif", u "Time in force"));
    (u "submitted", (u "sub", u "Submitted"));
    (u "quantity", (u "qty", u "Quantity"));
    (u "account", (u "acct", u "Account"));
    (u "status", (u "stat", u "Status"));
    (u "filled_quantity", (u "fq", u "Filled quantity"));
    (u "filled", (u "filled", u "Filled"));
    (u "limit_price", (u "lp", u "Limit price"));
    (u "est_cost", (u "ec", u "Est cost"));
    (u "est_reg_fees", (u "erf", u "Est regulatory fees")) ].

(** [st.session_state.get(f"{tag}_{prefix}", trade_data.get(key, ""))] *)
Definition field_value (session_state trade_data : gmap str json)
  (prefix tag key : str) : json :=
  default (default (JString []) (trade_data !! key))
          (session_state !! widget_key tag prefix).

(** The dictionary [record] built when the save button is pressed. *)
Definition build_record (session_state trade_data : gmap str json)
  (prefix : str) (suggestion comment saved_at : str) : gmap str json :=
  list_to_map
    (((λ f, (f.1, field_value session_state trade_data prefix f.2.1 f.2.2))
        <$> field_table)
     ++ [ (u "suggestion", JString suggestion);
          (u "comment", JString comment);
          (u "saved_at", JString saved_at) ]).

(** ** The text inputs of a trade, [trading_journal.py] lines 149-166 *)

(** A decimal digit. *)
Definition is_digit (c : N) : bool := ((48 <=? c) && (c <=? 57))%N.

(** A number of a JSON document that [json.loads] decodes as an [int]:
    its literal has no fraction and no exponent. *)
Definition is_int_literal (literal : str) : bool :=
  forallb (λ c, is_digit c || (c =? 45)%N) literal.

(** [str(n)] for the [int] that a literal decodes to: the literal itself,
    and [0] for the literal [-0]. *)
Definition int_text (literal : str) : str :=
  if bool_decide (literal = u "-0") then u "0" else literal.

(** What a text input holds when it is first shown with [value=v]:
    Streamlit casts the value to [str].  A text is itself; an [int] and a
    [bool] are as [str()] prints them.  What the widget holds for the
    other values (null, a number with a fraction or an exponent, an array,
    an object) depends on floating point, on [repr] and on the version of
    Streamlit: it is the parameter [other]. *)
Definition initial_value (other : json → json) (v : json) : json :=
  match v with
  | JString s => JString s
  | JBool true => JString (u "True")
  | JBool false => JString (u "False")
  | JNumber literal =>
      if is_int_literal literal then JString (int_text literal) else other v
  | _ => other v
  end.

(** [st.text_input(label, value=v, key=k)] on the session state: a widget
    that has a value in the session state keeps it, and a new widget gets
    the value it is first shown with. *)
Definition text_input (other : json → json) (session_state : gmap str json)
  (v : json) (k : str) : gmap str json :=
  match session_state !! k with
  | Some _ => session_state
  | None => <[k := initial_value other v]> session_state
  end.

(** The 15 text inputs of a trade, in the order of the page; each is
    [st.text_input(..., value=trade_data.get(key, ""), key=f"{tag}_{prefix}")]
    with the tag and the key that the record uses for the field. *)
Definition text_inputs (other : json → json) (session_state : gmap str json)
  (trade_data : gmap str json) (prefix : str) : gmap str json :=
  foldl (λ st f, text_input other st
                   (default (JString []) (trade_data !! f.2.2))
                   (widget_key f.2.1 prefix))
        session_state field_table.

(** What the user types into widgets between two runs of the script. *)
Definition type_into (edits : gmap str str) (session_state : gmap str json)
  : gmap str json :=
  (JString <$> edits) ∪ session_state.

(** A run of the script for one trade whose Save button was clicked: the
    widgets are shown, then [record] is built from the session state. *)
Definition saved_record (other : json → json) (session_state : gmap str json)
  (trade_data : gmap str json) (prefix suggestion comment saved_at : str)
  : gmap str json :=
  build_record (text_inputs other session_state trade_data prefix)
    trade_data prefix suggestion comment saved_at.

(** ** The TXT upload section, [trading_journal.py] lines 231-305 *)

(** [if not trades_list]: the page warns that the file has no valid trade
    block and shows nothing else for it. *)
Definition no_valid_blocks (raw_text : str) : bool :=
  bool_decide (parse_trade_text raw_text = []).

(** [prefix = f"{uploaded.name}_txt_trade{idx}"] *)
Definition txt_prefix (name : str) (idx : nat) : str :=
  name ++ u "_txt_trade" ++ decimal idx.

(** [missing = expected_keys - set(trade_data.keys())] for a parsed trade. *)
Definition missing_keys_txt (trade_data : gmap str str) : gset str :=
  expected_keys ∖ dom trade_data.

Definition missing_warning_txt (trade_data : gmap str str) : option (gset str) :=
  let missing := missing_keys_txt trade_data in
  if decide (missing = ∅) then None else Some missing.

(** [st.session_state.get(f"{tag}_{prefix}", trade_data.get(key, ""))] on
    the texts of the widgets and of the parsed trade. *)
Definition field_value_txt (session_state trade_data : gmap str str)
  (prefix tag key : str) : str :=
  default (default [] (trade_data !! key))
          (session_state !! widget_key tag prefix).

(** The dictionary [record] of the TXT section; it is written out a second
    time in the source, with the same entries as in the JSON section. *)
Definition build_record_txt (session_state trade_data : gmap str str)
  (prefix : str) (suggestion comment saved_at : str) : gmap str str :=
  list_to_map
    (((λ f, (f.1, field_value_txt session_state trade_data prefix f.2.1 f.2.2))
        <$> field_table)
     ++ [ (u "suggestion", suggestion);
          (u "comment", comment);
          (u "saved_at", saved_at) ]).

(** The save button of a TXT trade: [insert_trade(record)], the values of
    the record being [str]. *)
Definition save_txt_trade (session_state trade_data : gmap str str)
  (prefix suggestion comment saved_at : str) (t : table) : option table :=
  insert_trade
    (Some <$> build_record_txt session_state trade_data prefix
                suggestion comment saved_at) t.

(** ** The table of saved trades, [trading_journal.py] lines 316-350 *)

(** The heading and the column of each entry of a displayed row. *)
Definition view_columns : list (str * str) :=
  [ (u "Saved At", u "saved_at"); (u "Header", u "header");
    (u "Total Cost", u "total_cost"); (u "Quantity+Price", u "quantity_price");
    (u "Type", u "type"); (u "Position effect", u "position_effect");
    (u "Time in force", u "time_in_force"); (u "Submitted", u "submitted");
    (u "Quantity", u "quantity"); (u "Account", u "account");
    (u "Status", u "status"); (u "Filled qty", u "filled_quantity");
    (u "Filled", u "filled"); (u "Limit price", u "limit_price");
    (u "Est cost", u "est_cost"); (u "Est reg fees", u "est_reg_fees");
    (u "Suggestion", u "suggestion"); (u "Comment", u "comment") ].

(** The dictionary display [{"Saved At": t["saved_at"], ...}]; [None] is
    the [KeyError] of a key that [t] does not have. *)
Definition view_row (t : gmap str sql_value) : option (gmap str sql_value) :=
  entries ← mapM (λ c, pair c.1 <$> t !! c.2) view_columns;
  Some (list_to_map entries).

(** The rows given to the data frame, for [trades = fetch_all_trades()];
    with no trade the page shows a notice instead. *)
Definition saved_trades_view (t : table) : option (list (gmap str sql_value)) :=
  mapM view_row (fetch_all_trades t).

(** ** The keys of the widgets *)

(** The tags of the widget keys: those of the 15 text inputs and of the
    two text areas, [f"sugg_{prefix}"] and [f"comm_{prefix}"]. *)
Definition widget_tags : list str :=
  ((λ f, f.2.1) <$> field_table) ++ [u "sugg"; u "comm"].

(** The two sections of the page that give widgets their keys. *)
Inductive section : Type := JsonSection | TxtSection.

Definition section_prefix (s : section) (name : str) (idx : nat) : str :=
  match s with
  | JsonSection => json_prefix name idx
  | TxtSection => txt_prefix name idx
  end.

(** ** Notions used in the statements *)

(** The cursor and dictionary after the first [k] labels have been scanned. *)
Definition state_after (lines : list str) (k : nat) : nat * gmap str str :=
  scan lines (take k labels) (3, positional lines).

Definition cursor_before (lines : list str) (k : nat) : nat :=
  fst (state_after lines k).

Definition positional_keys : list str :=
  [u "header"; u "Total Cost"; u "Quantity + Price"].

(** Text made of white space only. *)
Definition all_space (w : str) : Prop := Forall (λ c, is_space c = true) w.

(** The result of [lstrip] is empty or starts with a character that is not
    white space. *)
Definition no_lead_space (s : str) : Prop :=
  match s with [] => True | c :: _ => is_space c = false end.

(** Steps 3 and 4 on the raw lines. *)
Definition usable (raw : list str) : list str :=
  filter (λ line, has_bullet line = false)
    (filter (λ line, line ≠ []) (map strip raw)).

(** The line that [splitlines_go] emits at the end of the text. *)
Definition last_line (cur : str) : list str :=
  match cur with [] => [] | _ => [rev cur] end.

(** A match of [\n\s*\n+] starts at [s] exactly when [s] is a line feed,
    white space, and a line feed again. *)
Definition starts_blank_run (s : str) : Prop :=
  ∃ w t, s = LF :: w ++ LF :: t ∧ all_space w.

(** [x] is before [y] whatever follows them. *)
Definition str_before (x y : str) : Prop :=
  ∀ s t, str_leb (x ++ s) (y ++ t) = true ∧ x ++ s ≠ y ++ t.




(** The lines [label; value] of labels with their values, one pair after
    the other. *)
Definition label_pairs (ls vs : list str) : list str :=
  concat (zip_with (λ l v, [l; v]) ls vs).

(** The blocks that give a record. *)
Definition valid_block (block : str) : Prop := 3 ≤ length (block_lines block).

(** Text that ends with a character that is not white space, as a stripped
    text that is not empty does. *)
Definition ends_in_ink (s : str) : Prop :=
  ∃ s0 c, s = s0 ++ [c] ∧ is_space c = false.

(** What follows the last line feed of [w]. *)
Fixpoint after_last_LF (w : str) : option str :=
  match w with
  | [] => None
  | c :: w' =>
      match after_last_LF w' with
      | Some t => Some t
      | None => if (c =? LF)%N then Some w' else None
      end
  end.

(** The leftmost match of [\n\s*\n+] inside white space [w] that is
    followed by other text: what is before the first line feed and what is
    after the last one, when [w] has two line feeds. *)
Fixpoint space_search (w : str) : option (str * str) :=
  match w with
  | [] => None
  | c :: w' =>
      if (c =? LF)%N then
        match after_last_LF w' with
        | Some t => Some ([], t)
        | None => None
        end
      else
        match space_search w' with
        | Some (p, t) => Some (c :: p, t)
        | None => None
        end
  end.

(** ** Sample inputs *)

Definition block_C1 : str :=
  u "Buy
$1
1 at $1
Type
Credit
Status".

Definition lines_C1 : list str :=
  [u "Buy"; u "$1"; u "1 at $1"; u "Type"; u "Credit"; u "Status"].

Definition block_C4 : str :=
  u "Buy SPY
$94.00
2 contracts at $0.47
Status
Filled
Type
Credit".

Definition lines_C4 : list str :=
  [u "Buy SPY"; u "$94.00"; u "2 contracts at $0.47";
   u "Status"; u "Filled"; u "Type"; u "Credit"].

Definition block_C4x : str :=
  u "Buy SPY
$94.00
2 contracts at $0.47
Status
Filled
Position effect
Open".

Definition block_C4y : str :=
  u "Buy SPY
$94.00
2 contracts at $0.47
Position effect
Opening
Type
Credit
Position effect
Closing".

Definition block_C5 : str :=
  u "Buy SPY
$94.00
2 contracts at $0.47
Type
Credit
Type
Debit".

Definition lines_C5 : list str :=
  [u "Buy SPY"; u "$94.00"; u "2 contracts at $0.47";
   u "Type"; u "Credit"; u "Type"; u "Debit"].

Definition record_C5 : gmap str str :=
  <[u "Type" := u "Credit"]> (positional lines_C5).

Definition block_C5x : str :=
  u "Buy SPY
$94.00
2 contracts at $0.47
Position effect
Open
Type
Credit
Position effect
Close".

Definition doc_C6 : str :=
  u "Buy SPY $645 Call 7/31
$94.00
2 contracts at $0.47".

Definition doc_C3 : str :=
  u "Buy SPY
$94.00
2 contracts at $0.47

only a header

Sell SPY
$90.00
2 contracts at $0.45".

Definition doc_C3b : str :=
  u "Buy SPY
$94.00
2 contracts at $0.47

Buy QQQ
$10.00
1 contract at $0.10

Sell SPY
$90.00
2 contracts at $0.45".

Definition bullet_line : str := u "Individual " ++ [BULLET] ++ u " Jun 2".

Definition block_C7 : str :=
  u "Buy SPY
$94.00
2 contracts at $0.47".

Definition block_C7b : str :=
  u "Buy SPY
" ++ bullet_line ++ u "
$94.00
2 contracts at $0.47".

Definition record_C6 : gmap str str :=
  {[ u "header" := u "Buy SPY $645 Call 7/31";
     u "Total Cost" := u "$94.00";
     u "Quantity + Price" := u "2 contracts at $0.47" ]}.

Definition prefix_C9 : str := json_prefix (u "trades.json") 0.

Definition trade_C9 : gmap str json :=
  {[ u "header" := JString (u "Buy SPY $645 Call 7/31");
     u "Total Cost" := JString (u "$94.00") ]}.

(** The sample objects hold texts and whole numbers only, so the text of
    other values is never asked for. *)
Definition other_C9 (v : json) : json := JNull.

Definition trade_C9n : gmap str json :=
  {[ u "header" := JNumber (u "123");
     u "Total Cost" := JString (u "$94.00") ]}.

Definition edits_C9 : gmap str str :=
  {[ widget_key (u "type") prefix_C9 := u "Credit" ]}.

Definition record_C8 (header saved_at : str) : gmap str (option str) :=
  <[u "header" := Some header]>
    (<[u "saved_at" := Some saved_at]>
       (list_to_map ((λ c, (c, Some [])) <$> data_columns))).

Definition saved_C8a : datetime :=
  {| year := 2025; month := 6; day := 2;
     hour := 10; minute := 0; second := 0; microsecond := 0 |}.

Definition saved_C8b : datetime :=
  {| year := 2025; month := 6; day := 2;
     hour := 10; minute := 0; second := 0; microsecond := 1 |}.

Definition records_C8 : list (gmap str (option str)) :=
  [ record_C8 (u "Buy SPY") (isoformat saved_C8a);
    record_C8 (u "Sell SPY") (isoformat saved_C8b) ].

Definition table_C8 : table :=
  default empty_table (insert_all records_C8 (init_db None)).

Definition block_in_order : str :=
  u "Buy SPY $645 Call 7/31
$94.00
2 contracts at $0.47
Type
Limit
Position effect
Open
Time in force
Day
placed from the app".

Definition values_in_order : list str := [u "Limit"; u "Open"; u "Day"].

Definition record_in_order : gmap str str :=
  {[ u "header" := u "Buy SPY $645 Call 7/31";
     u "Total Cost" := u "$94.00";
     u "Quantity + Price" := u "2 contracts at $0.47";
     u "Type" := u "Limit";
     u "Position effect" := u "Open";
     u "Time in force" := u "Day" ]}.

Definition block_no_type : str :=
  u "Sell QQQ
$10.00
1 contract at $0.10
Status
Filled
Account
Individual".

Definition lines_no_type : list str :=
  [u "Sell QQQ"; u "$10.00"; u "1 contract at $0.10";
   u "Status"; u "Filled"; u "Account"; u "Individual"].

Definition record_no_type : gmap str str :=
  {[ u "header" := u "Sell QQQ";
     u "Total Cost" := u "$10.00";
     u "Quantity + Price" := u "1 contract at $0.10" ]}.

Definition saved_moment : datetime :=
  {| year := 2025; month := 7; day := 31;
     hour := 9; minute := 30; second := 5; microsecond := 250000 |}.

Definition saved_txt : gmap str (option str) :=
  Some <$> build_record_txt ∅ record_in_order
             (txt_prefix (u "trades.txt") 0)
             (u "wait for the open") (u "first trade of the day")
             (isoformat saved_moment).

Definition table_saved_once : table :=
  default empty_table (insert_trade saved_txt (init_db None)).

Definition table_saved_twice : table :=
  default empty_table (insert_all [saved_txt; saved_txt] (init_db None)).

(** * Properties *)

(** A decidable closed fact, by evaluation. *)
Ltac by_evaluation := apply (bool_decide_unpack _); vm_compute; exact I.

(** A closed equation, by evaluation of both sides. *)
Ltac by_running := vm_compute; reflexivity.

(** ** The label scan *)

Lemma labels_NoDup : NoDup labels.
Proof. by_evaluation. Qed.

Lemma labels_not_positional (label : str) : label ∈ labels → label ∉ positional_keys.
Proof.
  intros Hl Hp.
  assert (H : Forall (λ l, l ∉ positional_keys) labels).
  { by_evaluation. }
  rewrite Forall_forall in H. exact (H _ Hl Hp).
Qed.

Lemma str_eqb_eq (a b : str) : str_eqb a b = true ↔ a = b.
Proof. unfold str_eqb. apply bool_decide_eq_true. Qed.

Lemma str_eqb_neq (a b : str) : str_eqb a b = false ↔ a ≠ b.
Proof. unfold str_eqb. apply bool_decide_eq_false. Qed.

Section LabelScan.
Context (lines : list str).

Lemma line_at_lookup (i : nat) :
  i < length lines → lines !! i = Some (line_at lines i).
Proof. intros H. unfold line_at. by apply list_lookup_lookup_total_lt. Qed.

(** Where the [while] loop stops. *)
Lemma advance_spec (fuel : nat) (label : str) (idx : nat) :
  length lines - idx ≤ fuel →
  let j := advance fuel lines label idx in
  idx ≤ j
  ∧ (∀ i, idx ≤ i < j → lines !! i ≠ Some label)
  ∧ ((j < length lines ∧ lines !! j = Some label)
     ∨ j = Nat.max idx (length lines)).
Proof.
  revert idx. induction fuel as [|fuel IH]; intros idx Hf; simpl.
  - split; [lia|]. split; [intros; lia|]. right. lia.
  - destruct (idx <? length lines) eqn:Hlt; simpl.
    + apply Nat.ltb_lt in Hlt.
      destruct (str_eqb (line_at lines idx) label) eqn:He; simpl.
      * apply str_eqb_eq in He.
        split; [lia|]. split; [intros; lia|]. left. split; [done|].
        by rewrite line_at_lookup, He.
      * apply str_eqb_neq in He.
        destruct (IH (S idx)) as (H1 & H2 & H3); [lia|].
        split; [lia|]. split.
        -- intros i Hi. destruct (decide (i = idx)) as [->|Hne].
           ++ rewrite line_at_lookup by done. congruence.
           ++ apply H2. lia.
        -- destruct H3 as [H3|H3]; [by left|right]. lia.
    + apply Nat.ltb_ge in Hlt.
      split; [lia|]. split; [intros; lia|]. right. lia.
Qed.

(** One round of the [for] loop, in terms of the landing position [j]. *)
Lemma scan_label_spec (idx : nat) (parsed : gmap str str)
  (label : str) :
  ∃ j,
    idx ≤ j
    ∧ (∀ i, idx ≤ i < j → lines !! i ≠ Some label)
    ∧ ((j < length lines ∧ lines !! j = Some label)
       ∨ j = Nat.max idx (length lines))
    ∧ scan_label lines (idx, parsed) label =
        match lines !! (j + 1) with
        | Some v => (j + 2, <[label := v]> parsed)
        | None => (j + 1, parsed)
        end.
Proof.
  destruct (advance_spec (length lines - idx) label idx) as (H1 & H2 & H3);
    [lia|].
  exists (advance (length lines - idx) lines label idx).
  split; [done|]. split; [done|]. split; [done|].
  unfold scan_label.
  set (j := advance _ _ _ _) in *.
  destruct (lines !! (j + 1)) as [v|] eqn:Hv.
  - pose proof (lookup_lt_Some _ _ _ Hv) as Hlt.
    destruct H3 as [[_ H3]|H3]; [|lia].
    assert ((j <? length lines) = true) as -> by (apply Nat.ltb_lt; lia).
    assert ((j + 1 <? length lines) = true) as -> by (apply Nat.ltb_lt; lia).
    rewrite line_at_lookup in H3 by lia.
    assert (str_eqb (line_at lines j) label = true) as ->
      by (apply str_eqb_eq; congruence).
    simpl. rewrite line_at_lookup in Hv by lia. congruence.
  - apply lookup_ge_None in Hv.
    assert ((j + 1 <? length lines) = false) as -> by (apply Nat.ltb_ge; lia).
    by rewrite andb_false_r.
Qed.

Lemma scan_app (ls1 ls2 : list str) (st : nat * gmap str str) :
  scan lines (ls1 ++ ls2) st = scan lines ls2 (scan lines ls1 st).
Proof. apply fold_left_app. Qed.

Lemma scan_snoc (ls : list str) (l : str) (st : nat * gmap str str) :
  scan lines (ls ++ [l]) st = scan_label lines (scan lines ls st) l.
Proof. by rewrite scan_app. Qed.

Lemma scan_cons (ls : list str) (l : str) (st : nat * gmap str str) :
  scan lines (l :: ls) st = scan lines ls (scan_label lines st l).
Proof. reflexivity. Qed.

(** The cursor never moves backward, and each round moves it forward. *)
Lemma scan_label_cursor (st : nat * gmap str str)
  (label : str) :
  fst st < fst (scan_label lines st label).
Proof.
  destruct st as [idx parsed].
  destruct (scan_label_spec idx parsed label) as (j & H1 & _ & _ & ->).
  destruct (lines !! (j + 1)); simpl; lia.
Qed.

Lemma scan_cursor_mono (ls : list str) (st : nat * gmap str str) : fst st ≤ fst (scan lines ls st).
Proof.
  revert st. induction ls as [|l ls IH]; intros st; [done|].
  rewrite scan_cons. etrans; [|apply IH].
  pose proof (scan_label_cursor st l). lia.
Qed.

(** A round writes no key but its own label. *)
Lemma scan_label_lookup_ne (st : nat * gmap str str)
  (label key : str) :
  key ≠ label → snd (scan_label lines st label) !! key = snd st !! key.
Proof.
  intros Hne. destruct st as [idx parsed].
  destruct (scan_label_spec idx parsed label) as (j & _ & _ & _ & ->).
  destruct (lines !! (j + 1)); simpl; [|done].
  by rewrite lookup_insert_ne.
Qed.

Lemma scan_lookup_notin (ls : list str) (st : nat * gmap str str)
  (key : str) :
  key ∉ ls → snd (scan lines ls st) !! key = snd st !! key.
Proof.
  revert st. induction ls as [|l ls IH]; intros st Hn; [done|].
  rewrite not_elem_of_cons in Hn. destruct Hn as [Hne Hn].
  rewrite scan_cons, IH by done. by apply scan_label_lookup_ne.
Qed.

Lemma positional_lookup_label (label : str) :
  label ∈ labels → positional lines !! label = None.
Proof.
  intros Hl. apply labels_not_positional in Hl.
  unfold positional_keys in Hl.
  rewrite !not_elem_of_cons in Hl. destruct Hl as (H1 & H2 & H3 & _).
  unfold positional. by rewrite !lookup_insert_ne, lookup_empty.
Qed.

Lemma labels_split (k : nat) (label : str) :
  labels !! k = Some label →
  labels = take k labels ++ label :: drop (S k) labels
  ∧ (label ∉ take k labels) ∧ (label ∉ drop (S k) labels).
Proof.
  intros Hk.
  assert (Heq : labels = take k labels ++ label :: drop (S k) labels).
  { rewrite <- (take_drop_middle _ _ _ Hk) at 1. done. }
  split; [done|].
  pose proof labels_NoDup as Hnd. rewrite Heq in Hnd.
  apply NoDup_app in Hnd as (_ & Hd & Hnd).
  apply NoDup_cons in Hnd as [Hn _].
  split; [|done]. intros Hin. apply (Hd _ Hin). left.
Qed.

Lemma parse_lines_Some :
  3 ≤ length lines →
  parse_lines lines = Some (snd (scan lines labels (3, positional lines))).
Proof.
  intros H. unfold parse_lines.
  by assert ((length lines <? 3) = false) as -> by (apply Nat.ltb_ge; lia).
Qed.

Lemma parse_lines_None :
  length lines < 3 → parse_lines lines = None.
Proof.
  intros H. unfold parse_lines.
  by assert ((length lines <? 3) = true) as -> by (apply Nat.ltb_lt; lia).
Qed.

Lemma state_after_S (k : nat) (label : str) :
  labels !! k = Some label →
  state_after lines (S k) = scan_label lines (state_after lines k) label.
Proof.
  intros Hk. unfold state_after.
  by rewrite (take_S_r _ _ _ Hk), scan_snoc.
Qed.

(** What the finished record holds for the [k]-th label is what round [k]
    left there. *)
Lemma final_lookup_label (k : nat) (label : str) :
  labels !! k = Some label →
  snd (scan lines labels (3, positional lines)) !! label =
  snd (state_after lines (S k)) !! label.
Proof.
  intros Hk. destruct (labels_split k label Hk) as (Heq & _ & Hn).
  rewrite Heq at 1. rewrite (cons_middle label), app_assoc, scan_app.
  rewrite scan_lookup_notin by done.
  unfold state_after. by rewrite (take_S_r _ _ _ Hk).
Qed.

Lemma state_after_lookup_fresh (k : nat) (label : str) :
  labels !! k = Some label → snd (state_after lines k) !! label = None.
Proof.
  intros Hk. destruct (labels_split k label Hk) as (_ & Hn & _).
  unfold state_after. rewrite scan_lookup_notin by done. simpl.
  apply positional_lookup_label. by eapply list_elem_of_lookup_2.
Qed.

Lemma cursor_before_ge (k : nat) : 3 ≤ cursor_before lines k.
Proof.
  unfold cursor_before, state_after.
  apply (scan_cursor_mono (take k labels) (3, positional lines)).
Qed.

(** The cursor only grows from label to label. *)
Lemma cursor_before_mono (k k' : nat) :
  k ≤ k' → cursor_before lines k ≤ cursor_before lines k'.
Proof.
  intros Hk. unfold cursor_before, state_after.
  replace k' with (k + (k' - k)) by lia.
  rewrite <- take_take_drop, scan_app. apply scan_cursor_mono.
Qed.

(** The landing position of a round is the first occurrence of the label
    from the cursor on, when there is one. *)
Lemma capture_first (k j : nat) (label : str) :
  labels !! k = Some label →
  cursor_before lines k ≤ j →
  lines !! j = Some label →
  (∀ i, cursor_before lines k ≤ i < j → lines !! i ≠ Some label) →
  state_after lines (S k) =
    match lines !! (j + 1) with
    | Some v => (j + 2, <[label := v]> (snd (state_after lines k)))
    | None => (j + 1, snd (state_after lines k))
    end
  ∧ snd (scan lines labels (3, positional lines)) !! label = lines !! (j + 1).
Proof.
  intros Hk Hj Hlab Hfirst.
  pose proof (state_after_S k label Hk) as HS.
  pose proof (final_lookup_label k label Hk) as Hfin.
  pose proof (state_after_lookup_fresh k label Hk) as Hfresh.
  unfold cursor_before in *.
  destruct (state_after lines k) as [idx parsed] eqn:Hst. cbn [fst snd] in *.
  destruct (scan_label_spec idx parsed label) as (j0 & H1 & H2 & H3 & H4).
  pose proof (lookup_lt_Some _ _ _ Hlab) as Hjlt.
  assert (j0 = j) as ->.
  { destruct H3 as [[H3 H3']|H3];
      [|exfalso; apply (H2 j); [lia|done]].
    destruct (Nat.lt_trichotomy j0 j) as [Hlt|[Heq|Hgt]]; [|done|].
    - exfalso. apply (Hfirst j0); [lia|done].
    - exfalso. apply (H2 j); [lia|done]. }
  rewrite Hfin, HS, H4. split; [done|].
  destruct (lines !! (j + 1)); simpl; [by rewrite lookup_insert_eq|done].
Qed.

(** A label that does not occur from the cursor on gets no value, and the
    cursor ends past the last line. *)
Lemma capture_none (k : nat) (label : str) :
  labels !! k = Some label →
  (∀ i, cursor_before lines k ≤ i → lines !! i ≠ Some label) →
  snd (scan lines labels (3, positional lines)) !! label = None
  ∧ length lines < cursor_before lines (S k).
Proof.
  intros Hk Hno.
  pose proof (state_after_S k label Hk) as HS.
  pose proof (final_lookup_label k label Hk) as Hfin.
  pose proof (state_after_lookup_fresh k label Hk) as Hfresh.
  unfold cursor_before in *.
  destruct (state_after lines k) as [idx parsed] eqn:Hst. cbn [fst snd] in *.
  destruct (scan_label_spec idx parsed label) as (j & H1 & H2 & H3 & H4).
  destruct H3 as [[H3 H3']|H3]; [by destruct (Hno j)|].
  assert (lines !! (j + 1) = None) as Hnone by (apply lookup_ge_None; lia).
  rewrite Hnone in H4. rewrite Hfin, HS, H4. simpl. split; [done|lia].
Qed.

(** Once the round of an earlier label has landed on [j] with a line after
    it, a later label is only looked for from [j + 2] on. *)
Lemma passed_label_missed (k1 k2 j : nat) (A B : str) :
  labels !! k1 = Some A → labels !! k2 = Some B → k1 < k2 →
  cursor_before lines k1 ≤ j →
  lines !! j = Some A →
  (∀ i, cursor_before lines k1 ≤ i < j → lines !! i ≠ Some A) →
  j + 1 < length lines →
  (∀ i, j + 2 ≤ i → lines !! i ≠ Some B) →
  snd (scan lines labels (3, positional lines)) !! A = lines !! (j + 1)
  ∧ snd (scan lines labels (3, positional lines)) !! B = None.
Proof.
  intros HA HB Hlt Hj Hlab Hfirst Hnext HnoB.
  destruct (capture_first k1 j A HA Hj Hlab Hfirst) as [HS HrA].
  split; [done|].
  apply (capture_none k2 B HB).
  intros i Hi. apply HnoB.
  pose proof (cursor_before_mono (S k1) k2 ltac:(lia)) as Hmono.
  assert (cursor_before lines (S k1) = j + 2) as Hc.
  { unfold cursor_before. rewrite HS.
    destruct (lookup_lt_is_Some_2 lines (j + 1) Hnext) as [v ->]. done. }
  lia.
Qed.

Lemma cursor_before_0 : cursor_before lines 0 = 3.
Proof. reflexivity. Qed.

End LabelScan.

(** ** The claims on the label scan *)

(** C1. For a block with at least 3 usable lines the labelled fields are
    extracted with a single forward cursor.  For the [k]-th label, with the
    cursor at [idx] (at least 3) and the dictionary [parsed] before its
    round: the cursor passes the lines different from the label and lands at
    [j], either on the first line from [idx] on that equals the label, or
    past the end.  If a line follows [j] it becomes the label's value and
    the cursor moves to [j + 2]; otherwise the cursor moves to [j + 1], the
    dictionary is unchanged, and the finished record has no value for the
    label (so a label landed on at the last line counts as not found).  The
    cursor moves strictly forward. *)
Theorem C1_forward_cursor (block : str) (lines : list str) (k : nat)
  (label : str) :
  block_lines block = lines →
  3 ≤ length lines →
  labels !! k = Some label →
  ∃ (j : nat) (record : gmap str str),
    let idx := cursor_before lines k in
    let parsed := snd (state_after lines k) in
    parse_block block = Some record
    ∧ 3 ≤ idx ∧ idx ≤ j
    ∧ (∀ i, idx ≤ i < j → lines !! i ≠ Some label)
    ∧ ((j < length lines ∧ lines !! j = Some label)
       ∨ j = Nat.max idx (length lines))
    ∧ state_after lines (S k) =
        match lines !! (j + 1) with
        | Some v => (j + 2, <[label := v]> parsed)
        | None => (j + 1, parsed)
        end
    ∧ idx < cursor_before lines (S k)
    ∧ record !! label = lines !! (j + 1)
    ∧ (j + 1 = length lines → record !! label = None)
    ∧ length labels = 12.
Proof.
  intros Hb Hlen Hk. unfold parse_block. rewrite Hb. clear Hb.
  pose proof (state_after_S lines k label Hk) as HS.
  pose proof (state_after_lookup_fresh lines k label Hk) as Hfresh.
  pose proof (final_lookup_label lines k label Hk) as Hfin.
  pose proof (cursor_before_ge lines k) as Hge.
  unfold cursor_before in *.
  destruct (state_after lines k) as [idx parsed] eqn:Hst. cbn [fst snd] in *.
  destruct (scan_label_spec lines idx parsed label) as (j & H1 & H2 & H3 & H4).
  exists j, (snd (scan lines labels (3, positional lines))).
  split; [by apply parse_lines_Some|].
  split; [done|]. split; [done|]. split; [done|]. split; [done|].
  rewrite HS, H4.
  assert (Hrec : snd (scan lines labels (3, positional lines)) !! label
                 = lines !! (j + 1)).
  { rewrite Hfin, HS, H4. destruct (lines !! (j + 1)); simpl.
    - by rewrite lookup_insert_eq.
    - done. }
  split; [done|]. split; [destruct (lines !! (j + 1)); simpl; lia|].
  split; [done|]. split; [|reflexivity].
  intros Hlast. rewrite Hrec. apply lookup_ge_None. lia.
Qed.

Lemma C1_forward_cursor_witness :
  block_lines block_C1 = lines_C1
  ∧ 3 ≤ length lines_C1 ∧ labels !! 0 = Some (u "Type")
  ∧ ∃ (j : nat) (record : gmap str str),
      let idx := cursor_before lines_C1 0 in
      let parsed := snd (state_after lines_C1 0) in
      parse_block block_C1 = Some record
      ∧ 3 ≤ idx ∧ idx ≤ j
      ∧ (∀ i, idx ≤ i < j → lines_C1 !! i ≠ Some (u "Type"))
      ∧ ((j < length lines_C1 ∧ lines_C1 !! j = Some (u "Type"))
         ∨ j = Nat.max idx (length lines_C1))
      ∧ state_after lines_C1 1 =
          match lines_C1 !! (j + 1) with
          | Some v => (j + 2, <[u "Type" := v]> parsed)
          | None => (j + 1, parsed)
          end
      ∧ idx < cursor_before lines_C1 1
      ∧ record !! u "Type" = lines_C1 !! (j + 1)
      ∧ (j + 1 = length lines_C1 → record !! u "Type" = None)
      ∧ length labels = 12.
Proof.
  split; [by_running|].
  split; [simpl; lia|]. split; [reflexivity|].
  apply (C1_forward_cursor block_C1 lines_C1 0 (u "Type"));
    [by_running | simpl; lia | reflexivity].
Defined.

(** C4, as the code has it.  An earlier-declared label [A] standing after a
    later-declared label [B] is found when the cursor has not passed it at
    the start of its round (the first label, [Type], is scanned for from
    index 3) and a line follows it; [B] is then missed when it does not
    occur again after the value of [A], because its round starts behind
    that value.  With the lines [Status; Filled; Type; Credit] after the
    three positional ones, the record has Type = Credit and no Status. *)
Theorem C4_out_of_order (block : str) (lines : list str) (k1 k2 j : nat)
  (A B : str) :
  block_lines block = lines →
  labels !! k1 = Some A → labels !! k2 = Some B → k1 < k2 →
  cursor_before lines k1 ≤ j →
  lines !! j = Some A →
  (∀ i, cursor_before lines k1 ≤ i < j → lines !! i ≠ Some A) →
  j + 1 < length lines →
  (∀ i, j + 2 ≤ i → lines !! i ≠ Some B) →
  (∃ record : gmap str str,
     parse_block block = Some record
     ∧ record !! A = lines !! (j + 1) ∧ record !! B = None)
  ∧ cursor_before lines 0 = 3
  ∧ (∀ (block' h c q : str),
       block_lines block' =
         [h; c; q; u "Status"; u "Filled"; u "Type"; u "Credit"] →
       ∃ record : gmap str str,
         parse_block block' = Some record
         ∧ record !! u "Type" = Some (u "Credit")
         ∧ record !! u "Status" = None).
Proof.
  intros Hb HA HB Hlt Hj Hlab Hfirst Hnext HnoB.
  split; [|split; [reflexivity|]].
  - exists (snd (scan lines labels (3, positional lines))).
    unfold parse_block. rewrite Hb.
    pose proof (cursor_before_ge lines k1) as Hge.
    split; [apply parse_lines_Some; lia|].
    by apply (passed_label_missed lines k1 k2 j A B).
  - clear. intros block' h c q Hb.
    set (ls := [h; c; q; u "Status"; u "Filled"; u "Type"; u "Credit"]) in *.
    exists (snd (scan ls labels (3, positional ls))).
    unfold parse_block. rewrite Hb.
    split; [apply parse_lines_Some; simpl; lia|].
    apply (passed_label_missed ls 0 6 5 (u "Type") (u "Status")).
    + reflexivity.
    + reflexivity.
    + lia.
    + rewrite cursor_before_0. lia.
    + reflexivity.
    + rewrite cursor_before_0. intros i Hi.
      assert (i = 3 ∨ i = 4) as [-> | ->] by lia; simpl; intros [=].
    + simpl. lia.
    + intros i Hi. rewrite lookup_ge_None_2; [done|]. simpl. lia.
Qed.

Lemma C4_out_of_order_witness :
  block_lines block_C4 = lines_C4
  ∧ labels !! 0 = Some (u "Type") ∧ labels !! 6 = Some (u "Status") ∧ 0 < 6
  ∧ cursor_before lines_C4 0 ≤ 5
  ∧ lines_C4 !! 5 = Some (u "Type")
  ∧ (∀ i, cursor_before lines_C4 0 ≤ i < 5 → lines_C4 !! i ≠ Some (u "Type"))
  ∧ 5 + 1 < length lines_C4
  ∧ (∀ i, 5 + 2 ≤ i → lines_C4 !! i ≠ Some (u "Status"))
  ∧ ((∃ record : gmap str str,
        parse_block block_C4 = Some record
        ∧ record !! u "Type" = lines_C4 !! (5 + 1)
        ∧ record !! u "Status" = None)
     ∧ cursor_before lines_C4 0 = 3
     ∧ (∀ (block' h c q : str),
          block_lines block' =
            [h; c; q; u "Status"; u "Filled"; u "Type"; u "Credit"] →
          ∃ record : gmap str str,
            parse_block block' = Some record
            ∧ record !! u "Type" = Some (u "Credit")
            ∧ record !! u "Status" = None)).
Proof.
  assert (H1 : block_lines block_C4 = lines_C4) by by_running.
  assert (H2 : cursor_before lines_C4 0 ≤ 5) by (rewrite cursor_before_0; lia).
  assert (H3 : ∀ i, cursor_before lines_C4 0 ≤ i < 5 →
                    lines_C4 !! i ≠ Some (u "Type")).
  { rewrite cursor_before_0. intros i Hi.
    assert (i = 3 ∨ i = 4) as [-> | ->] by lia; simpl; intros [=]. }
  assert (H4 : 5 + 1 < length lines_C4) by (simpl; lia).
  assert (H5 : ∀ i, 5 + 2 ≤ i → lines_C4 !! i ≠ Some (u "Status")).
  { intros i Hi. rewrite lookup_ge_None_2; [done|]. simpl. lia. }
  split; [exact H1|]. split; [reflexivity|]. split; [reflexivity|].
  split; [lia|]. split; [exact H2|]. split; [reflexivity|].
  split; [exact H3|]. split; [exact H4|]. split; [exact H5|].
  exact (C4_out_of_order block_C4 lines_C4 0 6 5 (u "Type") (u "Status")
           H1 eq_refl eq_refl ltac:(lia) H2 eq_refl H3 H4 H5).
Defined.

(** C4 as stated fails.  After the positional lines, the lines
    [Status; Filled; Position effect; Open] hold Position effect (declared
    second) after Status (declared seventh), yet Position effect is not
    found: the round of Type, which does not occur, has already taken the
    cursor past the end.  And with the lines
    [Position effect; Opening; Type; Credit; Position effect; Closing] the
    later-declared Position effect, standing before Type, is not missing
    from the record: it is found again after the value of Type. *)
Lemma C4_counterexample :
  block_lines block_C4x =
    [u "Buy SPY"; u "$94.00"; u "2 contracts at $0.47";
     u "Status"; u "Filled"; u "Position effect"; u "Open"]
  ∧ labels !! 1 = Some (u "Position effect")
  ∧ labels !! 6 = Some (u "Status")
  ∧ (∃ record : gmap str str,
       parse_block block_C4x = Some record
       ∧ record !! u "Position effect" = None
       ∧ record !! u "Status" = None)
  ∧ block_lines block_C4y =
      [u "Buy SPY"; u "$94.00"; u "2 contracts at $0.47";
       u "Position effect"; u "Opening"; u "Type"; u "Credit";
       u "Position effect"; u "Closing"]
  ∧ labels !! 0 = Some (u "Type")
  ∧ (∃ record : gmap str str,
       parse_block block_C4y = Some record
       ∧ record !! u "Type" = Some (u "Credit")
       ∧ record !! u "Position effect" = Some (u "Closing")).
Proof.
  split; [by_running|].
  split; [reflexivity|]. split; [reflexivity|].
  split.
  { exists (default ∅ (parse_block block_C4x)).
    split; [by_running|]. split; by_running. }
  split; [by_running|]. split; [reflexivity|].
  exists (default ∅ (parse_block block_C4y)).
  split; [by_running|]. split; by_running.
Qed.

(** C5, as the code has it.  The value of a label comes from the first
    occurrence of the label at or after the cursor position at which its
    round starts, and from no other: whenever the record has a value for
    the label, it is the line after that occurrence; and when the label
    occurs again later, the record still holds the line after the first of
    these occurrences.  For the first label the round starts at index 3. *)
Theorem C5_first_occurrence_from_cursor (block : str) (lines : list str)
  (k : nat) (label : str) (record : gmap str str) :
  block_lines block = lines →
  parse_block block = Some record →
  labels !! k = Some label →
  (∀ v, record !! label = Some v →
     ∃ j, cursor_before lines k ≤ j
          ∧ lines !! j = Some label
          ∧ (∀ i, cursor_before lines k ≤ i < j → lines !! i ≠ Some label)
          ∧ lines !! (j + 1) = Some v)
  ∧ (∀ j j',
       cursor_before lines k ≤ j →
       lines !! j = Some label →
       (∀ i, cursor_before lines k ≤ i < j → lines !! i ≠ Some label) →
       j < j' → lines !! j' = Some label →
       is_Some (lines !! (j + 1)) ∧ record !! label = lines !! (j + 1))
  ∧ cursor_before lines 0 = 3.
Proof.
  intros Hb Hp Hk. unfold parse_block in Hp. rewrite Hb in Hp.
  assert (Hrec : record = snd (scan lines labels (3, positional lines))).
  { unfold parse_lines in Hp. destruct (length lines <? 3); congruence. }
  subst record. clear Hp Hb.
  split; [|split; [|reflexivity]].
  - intros v Hv.
    pose proof (state_after_S lines k label Hk) as HS.
    pose proof (final_lookup_label lines k label Hk) as Hfin.
    pose proof (state_after_lookup_fresh lines k label Hk) as Hfresh.
    unfold cursor_before.
    destruct (state_after lines k) as [idx parsed] eqn:Hst. cbn [fst snd] in *.
    destruct (scan_label_spec lines idx parsed label) as (j & H1 & H2 & H3 & H4).
    rewrite Hfin, HS, H4 in Hv.
    destruct (lines !! (j + 1)) as [w|] eqn:Hw; simpl in Hv; [|congruence].
    rewrite lookup_insert_eq in Hv. injection Hv as ->.
    exists j. destruct H3 as [[H3 H3']|H3].
    + done.
    + apply lookup_lt_Some in Hw. lia.
  - intros j j' Hj Hlab Hfirst Hlt Hlab'.
    destruct (capture_first lines k j label Hk Hj Hlab Hfirst) as [_ Hr].
    split; [|done].
    apply lookup_lt_is_Some_2. apply lookup_lt_Some in Hlab'. lia.
Qed.

Lemma C5_first_occurrence_from_cursor_witness :
  block_lines block_C5 = lines_C5
  ∧ parse_block block_C5 = Some record_C5
  ∧ labels !! 0 = Some (u "Type")
  ∧ ((∀ v, record_C5 !! u "Type" = Some v →
        ∃ j, cursor_before lines_C5 0 ≤ j
             ∧ lines_C5 !! j = Some (u "Type")
             ∧ (∀ i, cursor_before lines_C5 0 ≤ i < j →
                     lines_C5 !! i ≠ Some (u "Type"))
             ∧ lines_C5 !! (j + 1) = Some v)
     ∧ (∀ j j',
          cursor_before lines_C5 0 ≤ j →
          lines_C5 !! j = Some (u "Type") →
          (∀ i, cursor_before lines_C5 0 ≤ i < j →
                lines_C5 !! i ≠ Some (u "Type")) →
          j < j' → lines_C5 !! j' = Some (u "Type") →
          is_Some (lines_C5 !! (j + 1))
          ∧ record_C5 !! u "Type" = lines_C5 !! (j + 1))
     ∧ cursor_before lines_C5 0 = 3).
Proof.
  assert (H1 : block_lines block_C5 = lines_C5) by by_running.
  assert (H2 : parse_block block_C5 = Some record_C5)
    by by_running.
  split; [exact H1|]. split; [exact H2|]. split; [reflexivity|].
  exact (C5_first_occurrence_from_cursor block_C5 lines_C5 0 (u "Type")
           record_C5 H1 H2 eq_refl).
Defined.

(** C5 as stated fails when the first occurrence among the lines from
    index 3 on lies before the cursor: here Position effect stands at index
    3 and at index 7; the round of Type passes the first one, and the value
    of Position effect is the line after the second. *)
Lemma C5_counterexample :
  block_lines block_C5x =
    [u "Buy SPY"; u "$94.00"; u "2 contracts at $0.47";
     u "Position effect"; u "Open"; u "Type"; u "Credit";
     u "Position effect"; u "Close"]
  ∧ ∃ record : gmap str str,
      parse_block block_C5x = Some record
      ∧ record !! u "Position effect" = Some (u "Close")
      ∧ record !! u "Position effect" ≠ Some (u "Open").
Proof.
  split; [by_running|].
  exists (default ∅ (parse_block block_C5x)).
  split; [by_running|].
  assert (H : default ∅ (parse_block block_C5x) !! u "Position effect"
              = Some (u "Close")) by by_running.
  split; [exact H|]. rewrite H. intros [=].
Qed.

(** C6. The document made of the single block
    [Buy SPY $645 Call 7/31 / $94.00 / 2 contracts at $0.47] parses to
    exactly one record, which holds the three positional fields and
    nothing else; and every block with exactly 3 usable lines yields the
    record of its three positional fields, without any of the 12 labels. *)
Theorem C6_three_lines (block h c q : str) :
  block_lines block = [h; c; q] →
  parse_block block =
    Some {[ u "header" := h; u "Total Cost" := c; u "Quantity + Price" := q ]}
  ∧ (∀ (record : gmap str str) (label : str),
       parse_block block = Some record → label ∈ labels →
       record !! label = None)
  ∧ parse_trade_text doc_C6 =
      [ {[ u "header" := u "Buy SPY $645 Call 7/31";
           u "Total Cost" := u "$94.00";
           u "Quantity + Price" := u "2 contracts at $0.47" ]} ].
Proof.
  intros Hb.
  assert (Hp : parse_block block = Some (positional [h; c; q])).
  { unfold parse_block. rewrite Hb. reflexivity. }
  assert (Hpos : positional [h; c; q] =
    {[ u "header" := h; u "Total Cost" := c; u "Quantity + Price" := q ]}).
  { unfold positional, line_at. simpl.
    apply map_eq. intros key.
    rewrite !lookup_insert, lookup_singleton, lookup_empty.
    repeat case_decide; subst; try done. }
  split; [by rewrite Hp, Hpos|]. split.
  - intros record label Hr Hl. rewrite Hp in Hr. injection Hr as <-.
    by apply positional_lookup_label.
  - by_running.
Qed.

Lemma C6_three_lines_witness :
  block_lines doc_C6 =
    [u "Buy SPY $645 Call 7/31"; u "$94.00"; u "2 contracts at $0.47"]
  ∧ (parse_block doc_C6 =
       Some {[ u "header" := u "Buy SPY $645 Call 7/31";
               u "Total Cost" := u "$94.00";
               u "Quantity + Price" := u "2 contracts at $0.47" ]}
     ∧ (∀ (record : gmap str str) (label : str),
          parse_block doc_C6 = Some record → label ∈ labels →
          record !! label = None)
     ∧ parse_trade_text doc_C6 =
         [ {[ u "header" := u "Buy SPY $645 Call 7/31";
              u "Total Cost" := u "$94.00";
              u "Quantity + Price" := u "2 contracts at $0.47" ]} ]).
Proof.
  assert (H : block_lines doc_C6 =
    [u "Buy SPY $645 Call 7/31"; u "$94.00"; u "2 contracts at $0.47"])
    by by_running.
  split; [exact H|].
  exact (C6_three_lines doc_C6 _ _ _ H).
Defined.

(** ** Stripping *)

Lemma lstrip_all_space (w : str) : all_space w → lstrip w = [].
Proof. induction 1 as [|c w Hc _ IH]; simpl; [done|]. by rewrite Hc. Qed.

Lemma lstrip_app_space (w x : str) : all_space w → lstrip (w ++ x) = lstrip x.
Proof. induction 1 as [|c w Hc _ IH]; simpl; [done|]. by rewrite Hc. Qed.

Lemma lstrip_decomp (s : str) : ∃ w, s = w ++ lstrip s ∧ all_space w.
Proof.
  induction s as [|c s (w & Hs & Hw)]; simpl.
  - exists []. split; [done|constructor].
  - destruct (is_space c) eqn:Hc.
    + exists (c :: w). split; [simpl; congruence|]. by constructor.
    + exists []. split; [done|constructor].
Qed.

Lemma lstrip_no_lead (s : str) : no_lead_space (lstrip s).
Proof.
  induction s as [|c s IH]; simpl; [done|].
  destruct (is_space c) eqn:Hc; [done|]. simpl. done.
Qed.

Lemma lstrip_id (s : str) : no_lead_space s → lstrip s = s.
Proof. destruct s as [|c s]; simpl; [done|]. by intros ->. Qed.

Lemma lstrip_app_keep (x y : str) :
  lstrip x ≠ [] → lstrip (x ++ y) = lstrip x ++ y.
Proof.
  induction x as [|c x IH]; simpl; [done|].
  destruct (is_space c); [done|]. done.
Qed.

Lemma all_space_rev (w : str) : all_space w → all_space (rev w).
Proof. apply Forall_rev. Qed.

Lemma rstrip_app_space (x w : str) : all_space w → rstrip (x ++ w) = rstrip x.
Proof.
  intros Hw. unfold rstrip. rewrite rev_app_distr.
  by rewrite lstrip_app_space by by apply all_space_rev.
Qed.

Lemma rstrip_decomp (s : str) : ∃ w, s = rstrip s ++ w ∧ all_space w.
Proof.
  destruct (lstrip_decomp (rev s)) as (w & Hs & Hw).
  exists (rev w). split; [|by apply all_space_rev].
  unfold rstrip. rewrite <- rev_app_distr, <- Hs. by rewrite rev_involutive.
Qed.

Lemma rstrip_nil_iff (x : str) : rstrip x = [] → all_space x.
Proof.
  intros H. destruct (rstrip_decomp x) as (w & Hx & Hw).
  rewrite H in Hx. simpl in Hx. by subst.
Qed.

Lemma strip_all_space (w : str) : all_space w → strip w = [].
Proof. intros Hw. unfold strip. by rewrite lstrip_all_space. Qed.

Lemma strip_app_space_l (w x : str) : all_space w → strip (w ++ x) = strip x.
Proof. intros Hw. unfold strip. by rewrite lstrip_app_space. Qed.

Lemma strip_app_space_r (x w : str) : all_space w → strip (x ++ w) = strip x.
Proof.
  intros Hw. unfold strip.
  destruct (lstrip x) as [|c x'] eqn:Hx.
  - destruct (lstrip_decomp x) as (w' & Hd & Hw'). rewrite Hx, app_nil_r in Hd.
    subst w'. rewrite lstrip_all_space; [done|].
    unfold all_space. by apply Forall_app.
  - rewrite lstrip_app_keep by by rewrite Hx.
    rewrite Hx. by apply rstrip_app_space.
Qed.

Lemma strip_decomp (s : str) :
  ∃ w1 w2, s = w1 ++ strip s ++ w2 ∧ all_space w1 ∧ all_space w2.
Proof.
  destruct (lstrip_decomp s) as (w1 & H1 & Hw1).
  destruct (rstrip_decomp (lstrip s)) as (w2 & H2 & Hw2).
  exists w1, w2. unfold strip. by rewrite <- H2.
Qed.

(** [rstrip] keeps the first character of a string that starts with a
    character that is not white space. *)
Lemma lstrip_snoc_keep (y : str) (c : N) :
  is_space c = false → ∃ z, lstrip (y ++ [c]) = z ++ [c].
Proof.
  intros Hc. induction y as [|a y (z & IH)]; simpl.
  - rewrite Hc. by exists [].
  - destruct (is_space a); [by exists z|]. by exists (a :: y).
Qed.

Lemma rstrip_no_lead (x : str) : no_lead_space x → no_lead_space (rstrip x).
Proof.
  destruct x as [|c x]; [done|]. simpl. intros Hc.
  unfold rstrip. simpl.
  destruct (lstrip_snoc_keep (rev x) c Hc) as (z & ->).
  rewrite rev_app_distr. simpl. done.
Qed.

Lemma rstrip_idemp (x : str) : rstrip (rstrip x) = rstrip x.
Proof.
  unfold rstrip. rewrite rev_involutive.
  by rewrite (lstrip_id (lstrip (rev x))) by apply lstrip_no_lead.
Qed.

Lemma strip_idemp (s : str) : strip (strip s) = strip s.
Proof.
  unfold strip.
  rewrite (lstrip_id (rstrip (lstrip s)))
    by (apply rstrip_no_lead, lstrip_no_lead).
  apply rstrip_idemp.
Qed.

Lemma is_space_BULLET : is_space BULLET = false.
Proof. reflexivity. Qed.

Lemma has_bullet_app (x y : str) :
  has_bullet (x ++ y) = has_bullet x || has_bullet y.
Proof. unfold has_bullet. apply existsb_app. Qed.

Lemma has_bullet_all_space (w : str) : all_space w → has_bullet w = false.
Proof.
  induction 1 as [|c w Hc _ IH]; [done|].
  change (has_bullet (c :: w)) with ((BULLET =? c)%N || has_bullet w).
  rewrite IH, orb_false_r.
  apply N.eqb_neq. intros <-. by rewrite is_space_BULLET in Hc.
Qed.

(** Stripping neither removes nor adds a bullet. *)
Lemma has_bullet_strip (s : str) : has_bullet (strip s) = has_bullet s.
Proof.
  destruct (strip_decomp s) as (w1 & w2 & Hs & H1 & H2).
  rewrite Hs at 2. rewrite !has_bullet_app.
  rewrite (has_bullet_all_space w1), (has_bullet_all_space w2) by done.
  by rewrite orb_false_r.
Qed.

(** ** The usable lines of a block *)

Lemma block_lines_usable (block : str) :
  block_lines block = usable (splitlines block).
Proof. reflexivity. Qed.

Lemma usable_app (l1 l2 : list str) : usable (l1 ++ l2) = usable l1 ++ usable l2.
Proof. unfold usable. by rewrite map_app, !filter_app. Qed.

Lemma usable_cons (x : str) (l : list str) : usable (x :: l) = usable [x] ++ usable l.
Proof. apply (usable_app [x] l). Qed.

Lemma usable_space (w : str) : all_space w → usable [w] = [].
Proof.
  intros Hw. unfold usable. simpl. rewrite strip_all_space by done.
  rewrite filter_cons_False; [done|]. by intros H.
Qed.

Lemma usable_bullet (g : str) : has_bullet g = true → usable [g] = [].
Proof.
  intros Hg. unfold usable. simpl.
  destruct (decide (strip g = [])) as [He|Hne].
  - rewrite filter_cons_False; [done|]. by intros H.
  - rewrite filter_cons_True by done. simpl.
    rewrite filter_cons_False; [done|].
    rewrite has_bullet_strip, Hg. done.
Qed.

Lemma usable_strip_eq (x y : str) : strip x = strip y → usable [x] = usable [y].
Proof. intros H. unfold usable. simpl. by rewrite H. Qed.

Lemma usable_last_line (cur : str) : usable (last_line cur) = usable [rev cur].
Proof.
  destruct cur as [|c cur]; [|done].
  simpl. symmetry. apply usable_space. constructor.
Qed.

Lemma splitlines_go_LF (cur s : str) :
  splitlines_go cur (LF :: s) = rev cur :: splitlines_go [] s.
Proof. by destruct s. Qed.

(** For the usable lines a line break always ends the line, whether it is
    the [\r] of a [\r\n] pair or not: the pair only hides an empty line. *)
Lemma usable_break (cur : str) (c : N) (s : str) :
  is_linebreak c = true →
  usable (splitlines_go cur (c :: s)) =
  usable [rev cur] ++ usable (splitlines_go [] s).
Proof.
  intros Hc. simpl. rewrite Hc.
  destruct s as [|c' s']; [by rewrite usable_cons|].
  destruct ((c =? CR)%N && (c' =? LF)%N) eqn:Hcr.
  - apply andb_prop in Hcr as [_ Hlf]. apply N.eqb_eq in Hlf. subst c'.
    rewrite usable_cons. f_equal.
    rewrite splitlines_go_LF. simpl rev. rewrite usable_cons.
    by rewrite (usable_space []) by constructor.
  - by rewrite usable_cons.
Qed.

Lemma usable_keep (cur : str) (c : N) (s : str) :
  is_linebreak c = false →
  splitlines_go cur (c :: s) = splitlines_go (c :: cur) s.
Proof. intros Hc. simpl. by rewrite Hc. Qed.

(** White space at the start of the line being read does not matter. *)
Lemma usable_go_cur_space (a w : str) (s : str) :
  all_space w →
  usable (splitlines_go (a ++ w) s) = usable (splitlines_go a s).
Proof.
  intros Hw. revert a. induction s as [|c s IH]; intros a.
  - simpl. fold (last_line (a ++ w)). fold (last_line a).
    rewrite !usable_last_line. apply usable_strip_eq.
    rewrite rev_app_distr. apply strip_app_space_l. by apply all_space_rev.
  - destruct (is_linebreak c) eqn:Hc.
    + rewrite !usable_break by done. f_equal. apply usable_strip_eq.
      rewrite rev_app_distr. apply strip_app_space_l. by apply all_space_rev.
    + rewrite !usable_keep by done. apply (IH (c :: a)).
Qed.

(** White space before the text adds no usable line. *)
Lemma usable_go_prefix (cur w s : str) :
  all_space cur → all_space w →
  usable (splitlines_go cur (w ++ s)) = usable (splitlines_go [] s).
Proof.
  intros Hcur Hw. revert cur Hcur.
  induction Hw as [|c w Hc Hw IH]; intros cur Hcur.
  - apply (usable_go_cur_space [] cur s Hcur).
  - simpl app. destruct (is_linebreak c) eqn:Hlb.
    + rewrite usable_break by done.
      rewrite usable_space by by apply all_space_rev.
      simpl. apply IH. constructor.
    + rewrite usable_keep by done. apply IH. by constructor.
Qed.

(** White space after the text adds no usable line. *)
Lemma usable_go_suffix (cur s w : str) :
  all_space w →
  usable (splitlines_go cur (s ++ w)) = usable (splitlines_go cur s).
Proof.
  intros Hw. revert cur. induction s as [|c s IH]; intros cur.
  - simpl app. revert cur. induction Hw as [|c w Hc Hw IH]; intros cur; [done|].
    destruct (is_linebreak c) eqn:Hlb.
    + rewrite usable_break by done.
      rewrite <- (app_nil_r w).
      rewrite (usable_go_prefix [] w []) by (done || constructor).
      simpl. fold (last_line cur). by rewrite usable_last_line, app_nil_r.
    + rewrite usable_keep by done. rewrite IH.
      simpl. fold (last_line cur). rewrite usable_last_line.
      apply usable_strip_eq. simpl.
      apply strip_app_space_r. by repeat constructor.
  - simpl app. destruct (is_linebreak c) eqn:Hlb.
    + rewrite !usable_break by done. by rewrite IH.
    + rewrite !usable_keep by done. apply IH.
Qed.

(** Stripping a block does not change its usable lines. *)
Lemma block_lines_strip (block : str) :
  block_lines (strip block) = block_lines block.
Proof.
  destruct (strip_decomp block) as (w1 & w2 & Hb & H1 & H2).
  rewrite Hb at 2. rewrite !block_lines_usable. unfold splitlines.
  rewrite usable_go_prefix by (done || constructor).
  by rewrite usable_go_suffix.
Qed.

(** ** Matching and splitting *)

(** What a match leaves is a suffix of the text. *)
Lemma greedy_suffix (a : atom) (k : str → option str) :
  (∀ t rest, k t = Some rest → ∃ m, t = m ++ rest) →
  ∀ s rest, greedy a k s = Some rest → ∃ m, s = m ++ rest.
Proof.
  intros Hk s. induction s as [|c s IH]; intros rest; simpl.
  - apply Hk.
  - destruct (atom_match a c); [|apply Hk].
    destruct (greedy a k s) as [r|] eqn:Hg; [|apply Hk].
    intros [= ->]. destruct (IH rest eq_refl) as (m & ->). by exists (c :: m).
Qed.

Lemma re_match_suffix (r : regex) (s rest : str) :
  re_match r s = Some rest → ∃ m, s = m ++ rest.
Proof.
  revert s rest. induction r as [|[a q] r IH]; intros s rest; simpl.
  - intros [= ->]. by exists [].
  - destruct q.
    + destruct s as [|c s]; [done|]. destruct (atom_match a c); [|done].
      intros H. destruct (IH _ _ H) as (m & ->). by exists (c :: m).
    + apply greedy_suffix. apply IH.
    + destruct s as [|c s]; [done|]. destruct (atom_match a c); [|done].
      intros H. destruct (greedy_suffix a _ IH _ _ H) as (m & ->).
      by exists (c :: m).
Qed.

Lemma greedy_total (a : atom) (s : str) : is_Some (greedy a Some s).
Proof.
  induction s as [|c s [r IH]]; simpl; [done|].
  destruct (atom_match a c); [|done]. by rewrite IH.
Qed.

Lemma line_feeds_Some (t : str) :
  is_Some (re_match [(Lit LF, Plus)] t) ↔ ∃ t', t = LF :: t'.
Proof.
  destruct t as [|c t]; simpl.
  - split; [by intros [? ?]|by intros [? ?]].
  - destruct (c =? LF)%N eqn:Hc.
    + apply N.eqb_eq in Hc. subst c. split; [by exists t|].
      intros _. apply (greedy_total (Lit LF) t).
    + apply N.eqb_neq in Hc. split; [by intros [? ?]|].
      intros [t' [= ? ?]]. done.
Qed.

Lemma space_run_Some (s : str) :
  is_Some (greedy Space (re_match [(Lit LF, Plus)]) s)
  ↔ ∃ w t, s = w ++ LF :: t ∧ all_space w.
Proof.
  induction s as [|c s IH].
  - simpl. split; [by intros [? ?]|].
    intros (w & t & H & _). by destruct w.
  - cbn [greedy atom_match]. split.
    + intros H. destruct (is_space c) eqn:Hc.
      * destruct (greedy Space (re_match [(Lit LF, Plus)]) s) as [r|] eqn:Hg.
        -- destruct (proj1 IH) as (w & t & -> & Hw); [done|].
           exists (c :: w), t. split; [done|by constructor].
        -- apply line_feeds_Some in H as [t' [= -> ->]].
           exists [], t'. split; [done|constructor].
      * apply line_feeds_Some in H as [t' [= -> ->]].
        exists [], t'. split; [done|constructor].
    + intros (w & t & Hs & Hw). destruct w as [|c' w]; simpl in Hs.
      * injection Hs as -> ->.
        assert (Hk : is_Some (re_match [(Lit LF, Plus)] (LF :: t)))
          by (apply line_feeds_Some; by exists t).
        change (is_space LF) with true. cbv iota.
        by destruct (greedy Space (re_match [(Lit LF, Plus)]) t).
      * injection Hs as -> ->. inversion Hw as [|? ? Hc Hw']; subst.
        rewrite Hc.
        destruct (proj2 IH) as [r ->]; [by exists w, t|]. done.
Qed.

Lemma blank_run_Some (s : str) :
  is_Some (re_match blank_run s) ↔ starts_blank_run s.
Proof.
  unfold starts_blank_run, blank_run.
  destruct s as [|c s]; cbn [re_match atom_match].
  - split; [by intros [? ?]|by intros (? & ? & ? & ?)].
  - destruct (c =? LF)%N eqn:Hc.
    + apply N.eqb_eq in Hc. subst c. rewrite space_run_Some. split.
      * intros (w & t & -> & Hw). by exists w, t.
      * intros (w & t & [= ->] & Hw). by exists w, t.
    + apply N.eqb_neq in Hc. split; [by intros [? ?]|].
      intros (w & t & [= ? ?] & _). done.
Qed.

Lemma starts_blank_run_app (x y : str) :
  starts_blank_run x → starts_blank_run (x ++ y).
Proof.
  intros (w & t & -> & Hw). exists w, (t ++ y). split; [|done].
  by rewrite <- app_comm_cons, <- app_assoc.
Qed.

(** A match is never empty. *)
Lemma blank_run_shorter (s rest : str) :
  re_match blank_run s = Some rest → length rest < length s.
Proof.
  unfold blank_run. destruct s as [|c s]; cbn [re_match]; [done|].
  destruct (atom_match (Lit LF) c); [|done].
  intros H. apply (re_match_suffix [(Space, Star); (Lit LF, Plus)]) in H.
  destruct H as (m & ->). simpl. rewrite length_app. lia.
Qed.

(** No match anywhere in the text. *)
Lemma re_search_None (r : regex) (s : str) :
  re_search r s = None ↔ ∀ p q, s = p ++ q → re_match r q = None.
Proof.
  induction s as [|c s IH]; simpl.
  - destruct (re_match r []) eqn:Hm.
    + split; [done|]. intros H. by rewrite (H [] []) in Hm.
    + split; [|done]. intros _ p q Hpq.
      symmetry in Hpq. apply app_eq_nil in Hpq as [_ ->]. done.
  - destruct (re_match r (c :: s)) eqn:Hm.
    + split; [done|]. intros H. by rewrite (H [] (c :: s)) in Hm.
    + destruct (re_search r s) as [[pre rest]|] eqn:Hs.
      * split; [done|]. intros H.
        assert (Hn : Some (pre, rest) = None); [|done].
        apply (proj2 IH). intros p q ->. by apply (H (c :: p) q).
      * split; [|done]. intros _ p q Hpq.
        destruct p as [|c' p]; simpl in Hpq.
        -- by subst q.
        -- injection Hpq as -> ->. by apply (proj1 IH eq_refl p q).
Qed.

(** The leftmost match: nothing matches at an earlier position. *)
Lemma re_search_Some (r : regex) (s pre rest : str) :
  re_search r s = Some (pre, rest) →
  ∃ m, s = pre ++ m ++ rest
       ∧ re_match r (m ++ rest) = Some rest
       ∧ ∀ p q, pre = p ++ q → q ≠ [] → re_match r (q ++ m ++ rest) = None.
Proof.
  revert pre rest. induction s as [|c s IH]; intros pre rest; simpl.
  - destruct (re_match r []) as [x|] eqn:Hm; [|done].
    intros [= <- <-]. destruct (re_match_suffix _ _ _ Hm) as (m & Hx).
    exists m. split; [done|]. split; [by rewrite <- Hx|].
    intros p q Hpq Hq. symmetry in Hpq. apply app_eq_nil in Hpq as [_ ->]. done.
  - destruct (re_match r (c :: s)) as [x|] eqn:Hm.
    + intros [= <- <-]. destruct (re_match_suffix _ _ _ Hm) as (m & Hx).
      exists m. split; [done|]. split; [by rewrite <- Hx|].
      intros p q Hpq Hq. symmetry in Hpq.
      apply app_eq_nil in Hpq as [_ ->]. done.
    + destruct (re_search r s) as [[pre' rest']|] eqn:Hs; [|done].
      intros [= <- <-].
      destruct (IH pre' rest' eq_refl) as (m & -> & Hmatch & Hleft).
      exists m. split; [done|]. split; [done|].
      intros p q Hpq Hq. destruct p as [|c' p]; simpl in Hpq.
      * subst q. done.
      * injection Hpq as -> ->. by apply (Hleft p q).
Qed.

(** A part of a text without a blank-line run has none either. *)
Lemma no_blank_run_part (a m b : str) :
  re_search blank_run (a ++ m ++ b) = None → re_search blank_run m = None.
Proof.
  rewrite !re_search_None. intros H p q ->.
  destruct (re_match blank_run q) as [x|] eqn:Hq; [|done].
  assert (Hs : starts_blank_run q) by (apply blank_run_Some; by rewrite Hq).
  apply (starts_blank_run_app q b), blank_run_Some in Hs.
  rewrite (H (a ++ p) (q ++ b)) in Hs; [by destruct Hs|].
  by rewrite <- !app_assoc.
Qed.

Lemma re_split_fuel_no_match (fuel : nat) (r : regex) (s : str) :
  re_search r s = None → re_split_fuel fuel r s = [s].
Proof. intros H. destruct fuel; simpl; [done|]. by rewrite H. Qed.

(** The rounds allowed to [re_split] are enough. *)
Lemma re_split_fuel_enough (fuel : nat) (s : str) :
  length s ≤ fuel →
  re_split_fuel fuel blank_run s = re_split blank_run s.
Proof.
  unfold re_split. remember (length s) as n eqn:Hn.
  assert (Hle : length s ≤ n) by lia. clear Hn.
  revert s fuel Hle. induction n as [|n IH]; intros s fuel Hle Hf.
  - destruct s; [|simpl in Hle; lia].
    by rewrite re_split_fuel_no_match.
  - destruct fuel as [|fuel]; [lia|]. simpl.
    destruct (re_search blank_run s) as [[pre rest]|] eqn:Hs; [|done].
    f_equal. destruct (re_search_Some _ _ _ _ Hs) as (m & -> & Hm & _).
    apply blank_run_shorter in Hm. rewrite !length_app in *.
    rewrite (IH rest fuel) by lia. symmetry. apply IH; lia.
Qed.

(** No piece of a split holds a blank-line run. *)
Lemma re_split_pieces (fuel : nat) (s : str) :
  length s ≤ fuel →
  Forall (λ p, re_search blank_run p = None) (re_split_fuel fuel blank_run s).
Proof.
  revert s. induction fuel as [|fuel IH]; intros s Hle.
  - destruct s; [|simpl in Hle; lia]. by repeat constructor.
  - simpl. destruct (re_search blank_run s) as [[pre rest]|] eqn:Hs.
    + destruct (re_search_Some _ _ _ _ Hs) as (m & -> & Hm & Hleft).
      constructor.
      * apply re_search_None. intros p q -> .
        destruct q as [|c q]; [done|].
        destruct (re_match blank_run (c :: q)) as [x|] eqn:Hq; [|done].
        assert (Hsb : starts_blank_run (c :: q))
          by (apply blank_run_Some; by rewrite Hq).
        apply (starts_blank_run_app _ (m ++ rest)), blank_run_Some in Hsb.
        rewrite (Hleft p (c :: q)) in Hsb by done. by destruct Hsb.
      * apply IH. apply blank_run_shorter in Hm.
        rewrite !length_app in *. lia.
    + by repeat constructor.
Qed.

Lemma trade_blocks_no_blank_run (raw_text : str) :
  Forall (λ p, re_search blank_run p = None) (trade_blocks raw_text).
Proof. by apply re_split_pieces. Qed.

(** A block read as a document of its own is that block. *)
Lemma parse_trade_text_block (block : str) :
  re_search blank_run block = None →
  parse_trade_text block = option_list (parse_block block).
Proof.
  intros Hno. unfold parse_trade_text, trade_blocks, re_split.
  destruct (strip_decomp block) as (w1 & w2 & Hb & _ & _).
  rewrite Hb in Hno. apply no_blank_run_part in Hno.
  rewrite re_split_fuel_no_match by done. simpl.
  unfold parse_block at 1. rewrite block_lines_strip.
  fold (parse_block block). by destruct (parse_block block).
Qed.

(** C2. Parsing a document gives the records of its blank-line-separated
    blocks, each parsed as a document of its own, in document order. *)
Theorem C2_blockwise (D : str) :
  parse_trade_text D = concat (map parse_trade_text (trade_blocks D)).
Proof.
  unfold parse_trade_text at 1.
  pose proof (trade_blocks_no_blank_run D) as Hno.
  induction Hno as [|b bs Hb _ IH]; [done|].
  simpl. rewrite (parse_trade_text_block b Hb), <- IH.
  by destruct (parse_block b).
Qed.

(** ** Short blocks *)

Lemma parse_block_short (block : str) :
  length (block_lines block) < 3 → parse_block block = None.
Proof. apply parse_lines_None. Qed.

Lemma parse_block_valid (block : str) :
  3 ≤ length (block_lines block) → is_Some (parse_block block).
Proof. intros H. unfold parse_block. by rewrite parse_lines_Some. Qed.

Lemma omap_app_parse (l1 l2 : list str) :
  omap parse_block (l1 ++ l2) = omap parse_block l1 ++ omap parse_block l2.
Proof. apply omap_app. Qed.

(** C3. A block with fewer than 3 usable lines gives no record, and the
    records of the other blocks of the document are produced as they are;
    the parser has no error result.  The same document with a block of at
    least 3 usable lines in that place has exactly one record more. *)
Theorem C3_short_block_dropped (D D' : str) (pre post : list str)
  (b b' : str) :
  trade_blocks D = pre ++ b :: post →
  length (block_lines b) < 3 →
  trade_blocks D' = pre ++ b' :: post →
  3 ≤ length (block_lines b') →
  parse_block b = None
  ∧ parse_trade_text D = omap parse_block pre ++ omap parse_block post
  ∧ (∃ r, parse_block b' = Some r
          ∧ parse_trade_text D' =
              omap parse_block pre ++ r :: omap parse_block post)
  ∧ length (parse_trade_text D') = S (length (parse_trade_text D)).
Proof.
  intros HD Hb HD' Hb'.
  pose proof (parse_block_short b Hb) as Hnone.
  destruct (parse_block_valid b' Hb') as [r Hr].
  assert (H1 : parse_trade_text D = omap parse_block pre ++ omap parse_block post).
  { unfold parse_trade_text. rewrite HD, omap_app_parse. simpl.
    by rewrite Hnone. }
  assert (H2 : parse_trade_text D' =
               omap parse_block pre ++ r :: omap parse_block post).
  { unfold parse_trade_text. rewrite HD', omap_app_parse. simpl.
    by rewrite Hr. }
  split; [done|]. split; [done|]. split; [by exists r|].
  rewrite H1, H2, !length_app. simpl. lia.
Qed.

Lemma C3_short_block_dropped_witness :
  let pre := [u "Buy SPY
$94.00
2 contracts at $0.47"] in
  let post := [u "Sell SPY
$90.00
2 contracts at $0.45"] in
  let b := u "only a header" in
  let b' := u "Buy QQQ
$10.00
1 contract at $0.10" in
  trade_blocks doc_C3 = pre ++ b :: post
  ∧ length (block_lines b) < 3
  ∧ trade_blocks doc_C3b = pre ++ b' :: post
  ∧ 3 ≤ length (block_lines b')
  ∧ (parse_block b = None
     ∧ parse_trade_text doc_C3 = omap parse_block pre ++ omap parse_block post
     ∧ (∃ r, parse_block b' = Some r
             ∧ parse_trade_text doc_C3b =
                 omap parse_block pre ++ r :: omap parse_block post)
     ∧ length (parse_trade_text doc_C3b) = S (length (parse_trade_text doc_C3))).
Proof.
  intros pre post b b'.
  assert (H1 : trade_blocks doc_C3 = pre ++ b :: post)
    by by_running.
  assert (H2 : length (block_lines b) < 3) by (vm_compute; lia).
  assert (H3 : trade_blocks doc_C3b = pre ++ b' :: post)
    by by_running.
  assert (H4 : 3 ≤ length (block_lines b')) by (vm_compute; lia).
  split; [exact H1|]. split; [exact H2|]. split; [exact H3|].
  split; [exact H4|].
  exact (C3_short_block_dropped doc_C3 doc_C3b pre post b b' H1 H2 H3 H4).
Defined.

(** ** Bullet lines *)

Lemma usable_go_app_LF (cur a b : str) :
  usable (splitlines_go cur (a ++ LF :: b)) =
  usable (splitlines_go cur a) ++ usable (splitlines_go [] b).
Proof.
  revert cur. induction a as [|c a IH]; intros cur.
  - rewrite app_nil_l, splitlines_go_LF, usable_cons.
    by rewrite <- (usable_last_line cur).
  - rewrite <- app_comm_cons. destruct (is_linebreak c) eqn:Hc.
    + rewrite !usable_break by done. by rewrite IH, app_assoc.
    + rewrite !usable_keep by done. apply IH.
Qed.

(** A text without line boundaries is a single line. *)
Lemma splitlines_go_single (cur g : str) :
  Forall (λ c, is_linebreak c = false) g →
  splitlines_go cur g = last_line (rev g ++ cur).
Proof.
  intros Hg. revert cur. induction Hg as [|c g Hc _ IH]; intros cur; [done|].
  rewrite usable_keep by done. rewrite IH. simpl.
  by rewrite <- app_assoc.
Qed.

Lemma usable_single_bullet (g : str) :
  has_bullet g = true → Forall (λ c, is_linebreak c = false) g →
  usable (splitlines_go [] g) = [].
Proof.
  intros Hb Hg. rewrite splitlines_go_single by done.
  rewrite usable_last_line, app_nil_r, rev_involutive.
  by apply usable_bullet.
Qed.

(** C7. A line holding the bullet, put at any place among the lines of a
    block, does not change what the block parses to; in the text of a
    block: between two lines, before the first line, and after the last. *)
Theorem C7_bullet_line_ignored (B B' : str) (l1 l2 : list str) (g : str) :
  splitlines B = l1 ++ l2 →
  splitlines B' = l1 ++ g :: l2 →
  has_bullet g = true →
  parse_block B' = parse_block B
  ∧ (∀ a b line : str,
       has_bullet line = true →
       Forall (λ c, is_linebreak c = false) line →
       parse_block (a ++ LF :: line ++ LF :: b) = parse_block (a ++ LF :: b)
       ∧ parse_block (line ++ LF :: b) = parse_block b
       ∧ parse_block (a ++ LF :: line) = parse_block a).
Proof.
  intros HB HB' Hg. split.
  - unfold parse_block. f_equal. rewrite !block_lines_usable, HB, HB'.
    rewrite (usable_app l1 (g :: l2)), (usable_cons g l2), (usable_app l1 l2).
    by rewrite usable_bullet.
  - clear. intros a b line Hb Hl.
    unfold parse_block. rewrite !block_lines_usable. unfold splitlines.
    split; [|split]; f_equal.
    + rewrite !usable_go_app_LF. by rewrite (usable_single_bullet line).
    + rewrite usable_go_app_LF. by rewrite (usable_single_bullet line).
    + rewrite usable_go_app_LF. rewrite (usable_single_bullet line) by done.
      by rewrite app_nil_r.
Qed.

Lemma C7_bullet_line_ignored_witness :
  let l1 := [u "Buy SPY"] in
  let l2 := [u "$94.00"; u "2 contracts at $0.47"] in
  splitlines block_C7 = l1 ++ l2
  ∧ splitlines block_C7b = l1 ++ bullet_line :: l2
  ∧ has_bullet bullet_line = true
  ∧ (parse_block block_C7b = parse_block block_C7
     ∧ (∀ a b line : str,
          has_bullet line = true →
          Forall (λ c, is_linebreak c = false) line →
          parse_block (a ++ LF :: line ++ LF :: b) = parse_block (a ++ LF :: b)
          ∧ parse_block (line ++ LF :: b) = parse_block b
          ∧ parse_block (a ++ LF :: line) = parse_block a)).
Proof.
  intros l1 l2.
  assert (H1 : splitlines block_C7 = l1 ++ l2) by by_running.
  assert (H2 : splitlines block_C7b = l1 ++ bullet_line :: l2)
    by by_running.
  assert (H3 : has_bullet bullet_line = true) by by_running.
  split; [exact H1|]. split; [exact H2|]. split; [exact H3|].
  exact (C7_bullet_line_ignored block_C7 block_C7b l1 l2 bullet_line H1 H2 H3).
Defined.

(** ** The records *)

Lemma usable_elem (raw : list str) (v : str) :
  v ∈ usable raw →
  v ≠ [] ∧ has_bullet v = false ∧ ∃ r, r ∈ raw ∧ v = strip r.
Proof.
  unfold usable. rewrite !list_elem_of_filter.
  intros (Hb & Hne & Hin). split; [done|]. split; [done|].
  apply list_elem_of_In, in_map_iff in Hin as (r & <- & Hr).
  exists r. by rewrite list_elem_of_In.
Qed.

Lemma scan_label_values (lines : list str) (st : nat * gmap str str)
  (label : str) :
  (∀ key v, snd st !! key = Some v → v ∈ lines) →
  ∀ key v, snd (scan_label lines st label) !! key = Some v → v ∈ lines.
Proof.
  intros Hst key v. destruct st as [idx parsed].
  destruct (scan_label_spec lines idx parsed label) as (j & _ & _ & _ & ->).
  destruct (lines !! (j + 1)) as [w|] eqn:Hw; simpl; [|apply Hst].
  destruct (decide (label = key)) as [->|Hne].
  - rewrite lookup_insert_eq. intros [= <-]. by eapply list_elem_of_lookup_2.
  - rewrite lookup_insert_ne by done. apply Hst.
Qed.

Lemma scan_values (lines ls : list str) (st : nat * gmap str str) :
  (∀ key v, snd st !! key = Some v → v ∈ lines) →
  ∀ key v, snd (scan lines ls st) !! key = Some v → v ∈ lines.
Proof.
  revert st. induction ls as [|l ls IH]; intros st Hst; [done|].
  rewrite scan_cons. apply IH. by apply scan_label_values.
Qed.

Lemma scan_label_dom (lines : list str) (st : nat * gmap str str)
  (label : str) :
  dom (snd st) ⊆ dom (snd (scan_label lines st label))
  ∧ dom (snd (scan_label lines st label)) ⊆ dom (snd st) ∪ {[label]}.
Proof.
  destruct st as [idx parsed].
  destruct (scan_label_spec lines idx parsed label) as (j & _ & _ & _ & ->).
  destruct (lines !! (j + 1)); simpl; [|set_solver].
  rewrite dom_insert_L. set_solver.
Qed.

Lemma scan_dom (lines ls : list str) (st : nat * gmap str str) :
  dom (snd st) ⊆ dom (snd (scan lines ls st))
  ∧ dom (snd (scan lines ls st)) ⊆ dom (snd st) ∪ list_to_set ls.
Proof.
  revert st. induction ls as [|l ls IH]; intros st; [set_solver|].
  rewrite scan_cons.
  destruct (IH (scan_label lines st l)) as [H1 H2].
  destruct (scan_label_dom lines st l) as [H3 H4].
  split; [set_solver|]. simpl. set_solver.
Qed.

Lemma positional_dom (lines : list str) :
  dom (positional lines) = list_to_set positional_keys.
Proof. unfold positional. rewrite !dom_insert_L. set_solver. Qed.

Lemma positional_values (lines : list str) :
  3 ≤ length lines →
  ∀ key v, positional lines !! key = Some v → v ∈ lines.
Proof.
  intros Hlen key v. unfold positional.
  rewrite !lookup_insert, lookup_empty.
  repeat case_decide; try done; intros [= <-];
    eapply list_elem_of_lookup_2; apply line_at_lookup; lia.
Qed.

Lemma parse_trade_text_space (D : str) :
  all_space D → parse_trade_text D = [].
Proof.
  intros HD. unfold parse_trade_text, trade_blocks.
  by rewrite strip_all_space.
Qed.

(** C10. A record of the parser holds the three positional keys, and
    besides them only labels; each of its values is a stripped line of its
    block, is not empty, is unchanged by stripping and holds no bullet.
    A document of white space only, or empty, has no record. *)
Theorem C10_record_invariant (D : str) (record : gmap str str) :
  record ∈ parse_trade_text D →
  (∃ block,
     block ∈ trade_blocks D
     ∧ parse_block block = Some record
     ∧ list_to_set positional_keys ⊆ dom record
     ∧ dom record ⊆ list_to_set positional_keys ∪ list_to_set labels
     ∧ ∀ key v, record !! key = Some v →
         v ≠ [] ∧ strip v = v ∧ has_bullet v = false
         ∧ ∃ raw, raw ∈ splitlines block ∧ v = strip raw)
  ∧ (∀ D' : str, all_space D' → parse_trade_text D' = []).
Proof.
  intros Hr. split; [|apply parse_trade_text_space].
  unfold parse_trade_text in Hr.
  apply list_elem_of_omap in Hr as (block & Hin & Hp).
  exists block. split; [done|]. split; [done|].
  unfold parse_block in Hp. set (lines := block_lines block) in *.
  destruct (decide (length lines < 3)) as [Hlt|Hge].
  { by rewrite parse_lines_None in Hp. }
  rewrite parse_lines_Some in Hp by lia. injection Hp as <-.
  destruct (scan_dom lines labels (3, positional lines)) as [H1 H2].
  simpl in H1, H2. rewrite positional_dom in H1, H2.
  split; [done|]. split; [done|].
  intros key v Hv.
  apply (scan_values lines labels (3, positional lines)) in Hv;
    [|apply positional_values; lia].
  apply usable_elem in Hv as (Hne & Hb & raw & Hraw & ->).
  split; [done|]. split; [apply strip_idemp|]. split; [done|]. by exists raw.
Qed.

Lemma C10_record_invariant_witness :
  record_C6 ∈ parse_trade_text doc_C6
  ∧ ((∃ block,
        block ∈ trade_blocks doc_C6
        ∧ parse_block block = Some record_C6
        ∧ list_to_set positional_keys ⊆ dom record_C6
        ∧ dom record_C6 ⊆ list_to_set positional_keys ∪ list_to_set labels
        ∧ ∀ key v, record_C6 !! key = Some v →
            v ≠ [] ∧ strip v = v ∧ has_bullet v = false
            ∧ ∃ raw, raw ∈ splitlines block ∧ v = strip raw)
     ∧ (∀ D' : str, all_space D' → parse_trade_text D' = [])).
Proof.
  assert (H : record_C6 ∈ parse_trade_text doc_C6).
  { assert (parse_trade_text doc_C6 = [record_C6]) as ->
      by by_running.
    apply list_elem_of_here. }
  split; [exact H|].
  exact (C10_record_invariant doc_C6 record_C6 H).
Defined.

(** ** The record store *)

Lemma str_leb_refl (a : str) : str_leb a a = true.
Proof.
  induction a as [|x a IH]; simpl; [done|].
  by rewrite N.ltb_irrefl.
Qed.

Lemma str_leb_total (a b : str) : str_leb a b = true ∨ str_leb b a = true.
Proof.
  revert b. induction a as [|x a IH]; intros [|y b]; simpl; auto.
  destruct (N.ltb_spec x y), (N.ltb_spec y x); auto; lia.
Qed.

Lemma str_leb_trans (a b c : str) :
  str_leb a b = true → str_leb b c = true → str_leb a c = true.
Proof.
  revert b c. induction a as [|x a IH]; intros [|y b] [|z c]; simpl; auto;
    try done.
  destruct (N.ltb_spec x y), (N.ltb_spec y x), (N.ltb_spec y z),
    (N.ltb_spec z y), (N.ltb_spec x z), (N.ltb_spec z x);
    try done; try lia.
  apply IH.
Qed.

Lemma str_leb_antisym (a b : str) :
  str_leb a b = true → str_leb b a = true → a = b.
Proof.
  revert b. induction a as [|x a IH]; intros [|y b]; simpl; try done.
  destruct (N.ltb_spec x y), (N.ltb_spec y x); try done; try lia.
  intros H1 H2. f_equal; [lia|by apply IH].
Qed.

Lemma sql_leb_total (a b : sql_value) : sql_leb a b = true ∨ sql_leb b a = true.
Proof.
  destruct a, b; simpl; auto.
  - destruct (Z.leb_spec n n0), (Z.leb_spec n0 n); auto; lia.
  - apply str_leb_total.
Qed.

Lemma sql_leb_trans (a b c : sql_value) :
  sql_leb a b = true → sql_leb b c = true → sql_leb a c = true.
Proof.
  destruct a, b, c; simpl; try done.
  - rewrite !Z.leb_le. lia.
  - apply str_leb_trans.
Qed.

Lemma sql_leb_antisym (a b : sql_value) :
  sql_leb a b = true → sql_leb b a = true → a = b.
Proof.
  destruct a, b; simpl; try done.
  - rewrite !Z.leb_le. intros. f_equal. lia.
  - intros H1 H2. f_equal. by apply str_leb_antisym.
Qed.

#[local] Instance newer_first_total : Total newer_first.
Proof.
  intros r1 r2. unfold newer_first.
  destruct (sql_leb_total (saved_at_of (row_dict r2)) (saved_at_of (row_dict r1)))
    as [H|H]; rewrite H; simpl; auto.
Qed.

#[local] Instance newer_first_trans : Transitive newer_first.
Proof.
  intros r1 r2 r3. unfold newer_first. rewrite !Is_true_true.
  intros H1 H2. by eapply sql_leb_trans.
Qed.

Lemma columns_NoDup : NoDup columns.
Proof. by_evaluation. Qed.

(** The dictionary of a row gives, for a column, the cell at the place of
    the column. *)
Lemma row_dict_lookup (row : list sql_value) (j : nat) (c : str) (v : sql_value) :
  length row = length columns →
  columns !! j = Some c → row !! j = Some v → row_dict row !! c = Some v.
Proof.
  intros Hlen Hc Hv. unfold row_dict.
  apply elem_of_list_to_map.
  - rewrite fst_zip by lia. apply columns_NoDup.
  - apply list_elem_of_lookup. exists j.
    rewrite lookup_zip_with, Hc. simpl. by rewrite Hv.
Qed.

Lemma bind_params_length (record : gmap str (option str)) (cells : list sql_value) :
  bind_params record = Some cells → length cells = length data_columns.
Proof.
  unfold bind_params. rewrite mapM_Some. intros H.
  symmetry. by eapply Forall2_length.
Qed.

Lemma bind_params_lookup (record : gmap str (option str))
  (cells : list sql_value) (c : str) (id : Z) :
  bind_params record = Some cells → c ∈ data_columns →
  row_dict (SqlInteger id :: cells) !! c = bind_value <$> record !! c.
Proof.
  intros Hb Hc.
  pose proof (bind_params_length _ _ Hb) as Hlen.
  unfold bind_params in Hb. rewrite mapM_Some in Hb.
  apply list_elem_of_lookup in Hc as [j Hj].
  destruct (Forall2_lookup_l _ _ _ _ _ Hb Hj) as (v & Hv & Hrec).
  rewrite Hrec.
  apply (row_dict_lookup _ (S j)); [simpl; by rewrite Hlen|done|done].
Qed.

Lemma row_dict_id (id : Z) (cells : list sql_value) :
  row_dict (SqlInteger id :: cells) !! u "id" = Some (SqlInteger id).
Proof. unfold row_dict. simpl. apply lookup_insert_eq. Qed.

(** Inserts leave the rows that are there in place. *)
Lemma insert_all_keeps (records : list (gmap str (option str))) (t t' : table)
  (n : nat) (row : list sql_value) :
  insert_all records t = Some t' →
  tbl_rows t !! n = Some row → tbl_rows t' !! n = Some row.
Proof.
  revert t. induction records as [|r records IH]; intros t; simpl.
  - by intros [= <-].
  - unfold insert_trade at 1.
    destruct (bind_params r) as [cells|]; simpl; [|done].
    intros Hins Hn. apply (IH _ Hins). simpl. by apply lookup_app_l_Some.
Qed.

(** The rows after a sequence of inserts: the earlier rows, then one row
    for each record, with the next rowids. *)
Lemma insert_all_rows (records : list (gmap str (option str))) (t t' : table) :
  insert_all records t = Some t' →
  length (tbl_rows t') = length (tbl_rows t) + length records
  ∧ ∀ i r, records !! i = Some r →
      ∃ cells, bind_params r = Some cells
        ∧ tbl_rows t' !! (length (tbl_rows t) + i)
          = Some (SqlInteger (tbl_seq t + 1 + Z.of_nat i) :: cells).
Proof.
  revert t. induction records as [|r records IH]; intros t; simpl.
  - intros [= <-]. split; [lia|]. intros i r Hr. done.
  - unfold insert_trade at 1.
    destruct (bind_params r) as [cells|] eqn:Hb; simpl; [|done].
    intros Hins. destruct (IH _ Hins) as [Hlen Hrows]. simpl in Hlen, Hrows.
    rewrite length_app in Hlen, Hrows. simpl in Hlen, Hrows.
    split; [lia|]. intros i r' Hr'. destruct i as [|i]; simpl in Hr'.
    + injection Hr' as <-. exists cells. split; [done|].
      apply (insert_all_keeps _ _ _ _ _ Hins). simpl.
      rewrite lookup_app_r by lia.
      replace (length (tbl_rows t) + 0 - length (tbl_rows t)) with 0 by lia.
      simpl. do 3 f_equal. lia.
    + destruct (Hrows i r' Hr') as (cells' & Hb' & Hrow).
      exists cells'. split; [done|].
      replace (length (tbl_rows t) + S i) with (length (tbl_rows t) + 1 + i)
        by lia.
      rewrite Hrow. do 3 f_equal. lia.
Qed.

Lemma saved_at_of_row (record : gmap str (option str)) (cells : list sql_value)
  (id : Z) (s : str) :
  bind_params record = Some cells →
  record !! u "saved_at" = Some (Some s) →
  saved_at_of (row_dict (SqlInteger id :: cells)) = SqlText s.
Proof.
  intros Hb Hs. unfold saved_at_of.
  rewrite (bind_params_lookup record cells (u "saved_at") id Hb), Hs; [done|].
  by_evaluation.
Qed.

(** ** Timestamps as text *)

Lemma str_before_prefix (p x y : str) : str_before x y → str_before (p ++ x) (p ++ y).
Proof.
  intros H s t. rewrite <- !app_assoc. destruct (H s t) as [H1 H2].
  split.
  - clear H2. induction p as [|c p IH]; simpl; [done|].
    by rewrite N.ltb_irrefl.
  - intros Heq. by apply app_inv_head in Heq.
Qed.

Lemma str_before_app (x y x' y' : str) :
  str_before x y → str_before (x ++ x') (y ++ y').
Proof. intros H s t. rewrite <- !app_assoc. apply H. Qed.

Lemma pow10_pos (w : nat) : (0 < pow10 w)%N.
Proof. induction w as [|w IH]; simpl; lia. Qed.

Lemma pad_before (w : nat) (a b : N) :
  (a < b)%N → (b < pow10 w)%N → str_before (pad w a) (pad w b).
Proof.
  revert a b. induction w as [|w IH]; intros a b Hab Hb.
  - simpl in Hb. lia.
  - intros s t. cbn [pad app].
    pose proof (pow10_pos w) as Hpos.
    assert (Hnz : pow10 w ≠ 0%N) by lia.
    pose proof (N.div_mod a (pow10 w) Hnz) as Ha'.
    pose proof (N.div_mod b (pow10 w) Hnz) as Hb'.
    pose proof (N.mod_lt a (pow10 w) Hnz) as Hra.
    pose proof (N.mod_lt b (pow10 w) Hnz) as Hrb.
    assert (Hq : (a / pow10 w ≤ b / pow10 w)%N)
      by (apply N.Div0.div_le_mono; lia).
    destruct (decide (a / pow10 w = b / pow10 w)%N) as [He|Hne].
    + rewrite He. cbn [str_leb]. rewrite N.ltb_irrefl.
      destruct (IH (a mod pow10 w) (b mod pow10 w))%N with (s := s) (t := t)
        as [H1 H2]; [nia|done|].
      split; [done|]. intros [= Heq]. done.
    + assert (Hlt : (digit (a / pow10 w) < digit (b / pow10 w))%N)
        by (unfold digit; lia).
      cbn [str_leb]. apply N.ltb_lt in Hlt as Hlt'. rewrite Hlt'.
      split; [done|]. intros [= Heq _]. lia.
Qed.

(** Texts of [isoformat] are ordered as the datetimes are. *)
Lemma isoformat_earlier (dt1 dt2 : datetime) :
  valid_datetime dt1 → valid_datetime dt2 → earlier dt1 dt2 →
  str_leb (isoformat dt1) (isoformat dt2) = true
  ∧ isoformat dt1 ≠ isoformat dt2.
Proof.
  intros (Hy1 & Hm1 & Hd1 & Hh1 & Hmi1 & Hs1 & Hu1)
         (Hy2 & Hm2 & Hd2 & Hh2 & Hmi2 & Hs2 & Hu2) He.
  assert (H : str_before (isoformat dt1) (isoformat dt2)
              ∨ (str_leb (isoformat dt1) (isoformat dt2) = true
                 ∧ isoformat dt1 ≠ isoformat dt2)).
  { unfold isoformat.
    destruct He as [He|[-> He]];
      [left; apply str_before_app, pad_before; simpl; lia|].
    destruct He as [He|[-> He]];
      [left; do 2 apply str_before_prefix;
       apply str_before_app, pad_before; simpl; lia|].
    destruct He as [He|[-> He]];
      [left; do 4 apply str_before_prefix;
       apply str_before_app, pad_before; simpl; lia|].
    destruct He as [He|[-> He]];
      [left; do 6 apply str_before_prefix;
       apply str_before_app, pad_before; simpl; lia|].
    destruct He as [He|[-> He]];
      [left; do 8 apply str_before_prefix;
       apply str_before_app, pad_before; simpl; lia|].
    destruct He as [He|[-> He]];
      [left; do 10 apply str_before_prefix;
       apply str_before_app, pad_before; simpl; lia|].
    assert (Hnz : (microsecond dt2 =? 0)%N = false) by (apply N.eqb_neq; lia).
    rewrite Hnz. rewrite !app_assoc.
    set (p := ((((((((((pad 4 (year dt2) ++ u "-") ++ pad 2 (month dt2)) ++ u "-")
            ++ pad 2 (day dt2)) ++ u "T") ++ pad 2 (hour dt2)) ++ u ":")
            ++ pad 2 (minute dt2)) ++ u ":") ++ pad 2 (second dt2))).
    destruct (microsecond dt1 =? 0)%N eqn:Hz.
    - right. rewrite app_nil_r. split.
      + clear. induction p as [|c p IH]; simpl; [done|].
        by rewrite N.ltb_irrefl.
      + intros Heq. rewrite <- (app_nil_r p) in Heq at 1.
        rewrite <- app_assoc in Heq. by apply app_inv_head in Heq.
    - left. rewrite <- !(app_assoc p). apply str_before_prefix.
      apply (str_before_prefix (u ".")). apply pad_before; simpl; lia. }
  destruct H as [H|H]; [|done].
  specialize (H [] []). by rewrite !app_nil_r in H.
Qed.

(** C8. After any sequence of inserts into a new store, [fetch_all_trades]
    returns one row for each insert and no other, each with the values
    inserted and the rowid of its insert, ordered by [saved_at] descending.
    After two inserts with different [saved_at] texts it returns both rows,
    the one with the larger [saved_at] first; when the texts are the
    [isoformat] of two datetimes, the row of the later datetime comes
    first. *)
Theorem C8_list_all (records : list (gmap str (option str))) (t : table) :
  insert_all records (init_db None) = Some t →
  let result := fetch_all_trades t in
  length result = length records
  ∧ (∀ i r, records !! i = Some r →
       ∃ d, d ∈ result
            ∧ d !! u "id" = Some (SqlInteger (Z.of_nat i + 1))
            ∧ ∀ c, c ∈ data_columns → d !! c = bind_value <$> r !! c)
  ∧ StronglySorted newer_first_dict result
  ∧ (∀ r1 r2 s1 s2,
       records = [r1; r2] →
       r1 !! u "saved_at" = Some (Some s1) →
       r2 !! u "saved_at" = Some (Some s2) →
       s1 ≠ s2 →
       ∃ d1 d2,
         d1 !! u "id" = Some (SqlInteger 1)
         ∧ d2 !! u "id" = Some (SqlInteger 2)
         ∧ saved_at_of d1 = SqlText s1
         ∧ saved_at_of d2 = SqlText s2
         ∧ result = if str_leb s1 s2 then [d2; d1] else [d1; d2])
  ∧ (∀ r1 r2 dt1 dt2,
       records = [r1; r2] →
       r1 !! u "saved_at" = Some (Some (isoformat dt1)) →
       r2 !! u "saved_at" = Some (Some (isoformat dt2)) →
       valid_datetime dt1 → valid_datetime dt2 → earlier dt1 dt2 →
       ∃ d1 d2,
         d1 !! u "id" = Some (SqlInteger 1)
         ∧ d2 !! u "id" = Some (SqlInteger 2)
         ∧ saved_at_of d1 = SqlText (isoformat dt1)
         ∧ saved_at_of d2 = SqlText (isoformat dt2)
         ∧ result = [d2; d1]).
Proof.
  intros Hins result.
  destruct (insert_all_rows records _ t Hins) as [Hlen Hrows].
  simpl in Hlen, Hrows.
  pose proof (merge_sort_Permutation newer_first (tbl_rows t)) as Hperm.
  pose proof (StronglySorted_merge_sort newer_first (tbl_rows t)) as Hsorted.
  assert (Htwo : ∀ r1 r2 s1 s2,
       records = [r1; r2] →
       r1 !! u "saved_at" = Some (Some s1) →
       r2 !! u "saved_at" = Some (Some s2) →
       s1 ≠ s2 →
       ∃ d1 d2,
         d1 !! u "id" = Some (SqlInteger 1)
         ∧ d2 !! u "id" = Some (SqlInteger 2)
         ∧ saved_at_of d1 = SqlText s1
         ∧ saved_at_of d2 = SqlText s2
         ∧ result = if str_leb s1 s2 then [d2; d1] else [d1; d2]);
    [|split; [|split; [|split; [|split; [exact Htwo|]]]]].
  - intros r1 r2 s1 s2 -> Hs1 Hs2 Hne.
    destruct (Hrows 0 r1 eq_refl) as (cells1 & Hb1 & Hrow1).
    destruct (Hrows 1 r2 eq_refl) as (cells2 & Hb2 & Hrow2).
    simpl in Hlen, Hrow1, Hrow2.
    set (row1 := SqlInteger 1 :: cells1) in *.
    set (row2 := SqlInteger 2 :: cells2) in *.
    assert (Ht : tbl_rows t = [row1; row2]).
    { clear Hperm Hsorted Hrows. revert Hlen Hrow1 Hrow2.
      generalize (tbl_rows t). intros [|a [|b [|c l]]]; simpl; try lia.
      by intros _ [= ->] [= ->]. }
    exists (row_dict row1), (row_dict row2).
    split; [apply row_dict_id|]. split; [apply row_dict_id|].
    pose proof (saved_at_of_row r1 cells1 1 s1 Hb1 Hs1) as Hsa1.
    pose proof (saved_at_of_row r2 cells2 2 s2 Hb2 Hs2) as Hsa2.
    split; [done|]. split; [done|].
    unfold result, fetch_all_trades. rewrite Ht in Hperm, Hsorted |- *.
    symmetry in Hperm. apply Permutation_length_2_inv in Hperm.
    destruct Hperm as [Hp|Hp]; rewrite Hp in Hsorted |- *;
      apply StronglySorted_inv in Hsorted as [_ Hhd];
      apply Forall_cons in Hhd as [Hhd _];
      unfold newer_first in Hhd; fold row1 row2 in Hsa1, Hsa2;
      rewrite Hsa1, Hsa2 in Hhd; simpl in Hhd; apply Is_true_true in Hhd.
    + destruct (str_leb s1 s2) eqn:H12; [|done].
      exfalso. apply Hne. by apply str_leb_antisym.
    + by rewrite Hhd.
  - unfold result, fetch_all_trades.
    by rewrite length_fmap, Hperm.
  - intros i r Hr. destruct (Hrows i r Hr) as (cells & Hb & Hrow).
    exists (row_dict (SqlInteger (0 + 1 + Z.of_nat i) :: cells)).
    split; [|split].
    + unfold result, fetch_all_trades. apply list_elem_of_fmap.
      eexists. split; [done|]. rewrite Hperm.
      by eapply list_elem_of_lookup_2.
    + rewrite row_dict_id. do 2 f_equal. lia.
    + intros c Hc. by apply bind_params_lookup.
  - unfold result, fetch_all_trades.
    by apply (StronglySorted_fmap row_dict newer_first newer_first_dict).
  - intros r1 r2 dt1 dt2 Hrec Hs1 Hs2 Hv1 Hv2 He.
    destruct (isoformat_earlier dt1 dt2 Hv1 Hv2 He) as [Hle Hne].
    destruct (Htwo r1 r2 _ _ Hrec Hs1 Hs2 Hne)
      as (d1 & d2 & H1 & H2 & H3 & H4 & H5).
    exists d1, d2. rewrite Hle in H5. done.
Qed.

Lemma C8_list_all_witness :
  insert_all records_C8 (init_db None) = Some table_C8
  ∧ (let result := fetch_all_trades table_C8 in
     length result = length records_C8
     ∧ (∀ i r, records_C8 !! i = Some r →
          ∃ d, d ∈ result
               ∧ d !! u "id" = Some (SqlInteger (Z.of_nat i + 1))
               ∧ ∀ c, c ∈ data_columns → d !! c = bind_value <$> r !! c)
     ∧ StronglySorted newer_first_dict result
     ∧ (∀ r1 r2 s1 s2,
          records_C8 = [r1; r2] →
          r1 !! u "saved_at" = Some (Some s1) →
          r2 !! u "saved_at" = Some (Some s2) →
          s1 ≠ s2 →
          ∃ d1 d2,
            d1 !! u "id" = Some (SqlInteger 1)
            ∧ d2 !! u "id" = Some (SqlInteger 2)
            ∧ saved_at_of d1 = SqlText s1
            ∧ saved_at_of d2 = SqlText s2
            ∧ result = if str_leb s1 s2 then [d2; d1] else [d1; d2])
     ∧ (∀ r1 r2 dt1 dt2,
          records_C8 = [r1; r2] →
          r1 !! u "saved_at" = Some (Some (isoformat dt1)) →
          r2 !! u "saved_at" = Some (Some (isoformat dt2)) →
          valid_datetime dt1 → valid_datetime dt2 → earlier dt1 dt2 →
          ∃ d1 d2,
            d1 !! u "id" = Some (SqlInteger 1)
            ∧ d2 !! u "id" = Some (SqlInteger 2)
            ∧ saved_at_of d1 = SqlText (isoformat dt1)
            ∧ saved_at_of d2 = SqlText (isoformat dt2)
            ∧ result = [d2; d1])).
Proof.
  assert (H : insert_all records_C8 (init_db None) = Some table_C8)
    by by_running.
  split; [exact H|].
  exact (C8_list_all records_C8 table_C8 H).
Defined.

(** ** The record built for saving *)

Lemma field_table_keys (col tag key : str) :
  (col, (tag, key)) ∈ field_table → key ∈ expected_keys.
Proof.
  intros Hin.
  assert (H : Forall (λ f, bool_decide (f.2.2 ∈ expected_keys) = true) field_table).
  { by_evaluation. }
  rewrite Forall_forall in H. apply H in Hin.
  by apply bool_decide_eq_true in Hin.
Qed.

(** Every expected key has its entry in the record. *)
Lemma field_table_covers (key : str) :
  key ∈ expected_keys → ∃ col tag, (col, (tag, key)) ∈ field_table.
Proof.
  intros Hk.
  assert (He : expected_keys = list_to_set ((λ f, f.2.2) <$> field_table))
    by reflexivity.
  rewrite He, elem_of_list_to_set, list_elem_of_fmap in Hk.
  destruct Hk as ([col [tag key']] & -> & Hin). by exists col, tag.
Qed.

Lemma build_record_lookup (session_state trade_data : gmap str json)
  (prefix suggestion comment saved_at col tag key : str) :
  (col, (tag, key)) ∈ field_table →
  build_record session_state trade_data prefix suggestion comment saved_at !! col
  = Some (field_value session_state trade_data prefix tag key).
Proof.
  intros Hin. unfold build_record. apply elem_of_list_to_map.
  - rewrite fmap_app, <- list_fmap_compose. simpl.
    by_evaluation.
  - apply elem_of_app. left. apply list_elem_of_fmap.
    by exists (col, (tag, key)).
Qed.

Lemma missing_keys_iff (trade_data : gmap str json) (key : str) :
  key ∈ expected_keys →
  key ∈ missing_keys trade_data ↔ trade_data !! key = None.
Proof.
  intros Hk. unfold missing_keys.
  rewrite elem_of_difference, not_elem_of_dom. naive_solver.
Qed.

Lemma field_table_tags_NoDup : NoDup ((λ f, f.2.1) <$> field_table).
Proof. by_evaluation. Qed.

Lemma widget_key_same_prefix (tag1 tag2 prefix : str) :
  widget_key tag1 prefix = widget_key tag2 prefix → tag1 = tag2.
Proof. unfold widget_key. by intros H%app_inv_tail. Qed.

Lemma text_input_lookup (other : json → json) (session_state : gmap str json)
  (v : json) (k k' : str) :
  text_input other session_state v k !! k'
  = match session_state !! k' with
    | Some x => Some x
    | None => if decide (k = k') then Some (initial_value other v) else None
    end.
Proof.
  unfold text_input.
  destruct (session_state !! k) as [x|] eqn:Hk.
  - destruct (session_state !! k') as [x'|] eqn:Hk'; [done|].
    destruct (decide (k = k')) as [->|]; [congruence|done].
  - destruct (decide (k = k')) as [->|Hne].
    + by rewrite lookup_insert_eq, Hk.
    + rewrite lookup_insert_ne by done. by destruct (session_state !! k').
Qed.

(** Widgets with other keys leave the value under a key as it is. *)
Lemma text_inputs_other_keys (other : json → json) (trade_data : gmap str json)
  (prefix k : str) (fields : list (str * (str * str)))
  (session_state : gmap str json) :
  (∀ f, f ∈ fields → widget_key f.2.1 prefix ≠ k) →
  foldl (λ st f, text_input other st
                   (default (JString []) (trade_data !! f.2.2))
                   (widget_key f.2.1 prefix)) session_state fields !! k
  = session_state !! k.
Proof.
  revert session_state. induction fields as [|f fields IH];
    intros session_state Hne; [done|].
  simpl. rewrite IH by (intros f' Hf'; apply Hne; by right).
  rewrite text_input_lookup.
  destruct (session_state !! k); [done|].
  rewrite decide_False; [done|]. apply Hne. by left.
Qed.

(** A value that is under a key stays there. *)
Lemma text_inputs_keeps (other : json → json) (trade_data : gmap str json)
  (prefix k : str) (x : json) (fields : list (str * (str * str)))
  (session_state : gmap str json) :
  session_state !! k = Some x →
  foldl (λ st f, text_input other st
                   (default (JString []) (trade_data !! f.2.2))
                   (widget_key f.2.1 prefix)) session_state fields !! k
  = Some x.
Proof.
  revert session_state. induction fields as [|f fields IH];
    intros session_state Hk; [done|].
  simpl. apply IH. by rewrite text_input_lookup, Hk.
Qed.

(** After the widgets of a trade are shown, each of them has a value in
    the session state: the one it had, or the one it is first shown
    with. *)
Lemma text_inputs_lookup (other : json → json)
  (session_state trade_data : gmap str json) (prefix col tag key : str) :
  (col, (tag, key)) ∈ field_table →
  text_inputs other session_state trade_data prefix !! widget_key tag prefix
  = Some (default (initial_value other (default (JString []) (trade_data !! key)))
                  (session_state !! widget_key tag prefix)).
Proof.
  intros Hin. unfold text_inputs.
  pose proof field_table_tags_NoDup as Hnd.
  revert session_state. induction field_table as [|f fields IH];
    intros session_state; [by apply elem_of_nil in Hin|].
  rewrite fmap_cons in Hnd. apply NoDup_cons in Hnd as [Hf Hnd].
  simpl. apply elem_of_cons in Hin as [<-|Hin].
  - cbn [fst snd].
    destruct (session_state !! widget_key tag prefix) as [x|] eqn:Hk.
    + apply text_inputs_keeps. by rewrite text_input_lookup, Hk.
    + rewrite text_inputs_other_keys.
      * rewrite text_input_lookup, Hk. by rewrite decide_True.
      * intros f' Hf' Heq. apply widget_key_same_prefix in Heq.
        apply Hf. cbn [fst snd]. rewrite <- Heq.
        apply list_elem_of_fmap. by exists f'.
    - rewrite (IH Hin Hnd). f_equal.
      rewrite text_input_lookup.
      destruct (session_state !! widget_key tag prefix) as [x|]; [done|].
      rewrite decide_False; [done|].
      intros Heq. apply widget_key_same_prefix in Heq.
      apply Hf. rewrite Heq. apply list_elem_of_fmap.
      by exists (col, (tag, key)).
Qed.

Lemma build_record_dom (session_state trade_data : gmap str json)
  (prefix suggestion comment saved_at : str) :
  dom (build_record session_state trade_data prefix suggestion comment saved_at)
  = list_to_set data_columns.
Proof.
  unfold build_record.
  rewrite dom_list_to_map_L, fmap_app, <- list_fmap_compose. done.
Qed.

(** The field of the record is the value of its widget when the Save run
    starts, which every widget that was shown has. *)
Lemma saved_record_lookup (other : json → json)
  (session_state trade_data : gmap str json)
  (prefix suggestion comment saved_at col tag key : str) :
  (col, (tag, key)) ∈ field_table →
  saved_record other session_state trade_data prefix suggestion comment saved_at
    !! col
  = Some (default (initial_value other (default (JString []) (trade_data !! key)))
                  (session_state !! widget_key tag prefix)).
Proof.
  intros Hin. unfold saved_record.
  rewrite (build_record_lookup _ _ _ _ _ _ col tag key Hin).
  unfold field_value.
  by rewrite (text_inputs_lookup _ _ _ _ col tag key Hin).
Qed.

(** C9, as the code has it.  A trade object with expected keys missing is
    not an error: when keys are missing a warning lists exactly them, and
    the record for saving is built all the same, with all its 18 keys.
    The trade is shown, the user may type into its widgets, and on Save
    every widget has a value in the session state; the field of the
    record is that value.  A field the user has typed into holds the text
    typed.  A field that was not typed into, of a widget that was new when
    the trade was shown, holds what the widget was first shown with: the
    empty string when its key is missing; when the key is present, a text
    as it is, and a whole number or a boolean as [str()] prints it.  Every
    expected key is the key of one of the fields. *)
Theorem C9_missing_keys_tolerated (other : json → json)
  (first_state : gmap str json) (edits : gmap str str)
  (trade_data : gmap str json)
  (prefix suggestion comment saved_at col tag key : str) :
  (col, (tag, key)) ∈ field_table →
  let shown := text_inputs other first_state trade_data prefix in
  let on_save := type_into edits shown in
  let record :=
    saved_record other on_save trade_data prefix suggestion comment saved_at in
  let widget := widget_key tag prefix in
  key ∈ expected_keys
  ∧ (missing_keys trade_data ≠ ∅ →
     missing_warning trade_data = Some (missing_keys trade_data))
  ∧ (missing_keys trade_data = ∅ → missing_warning trade_data = None)
  ∧ (key ∈ missing_keys trade_data ↔ trade_data !! key = None)
  ∧ dom record = list_to_set data_columns
  ∧ record !! col = on_save !! widget
  ∧ is_Some (on_save !! widget)
  ∧ (∀ text, edits !! widget = Some text → record !! col = Some (JString text))
  ∧ (edits !! widget = None → first_state !! widget = None →
     record !! col
     = Some (initial_value other (default (JString []) (trade_data !! key)))
     ∧ (key ∈ missing_keys trade_data → record !! col = Some (JString []))
     ∧ (∀ s, trade_data !! key = Some (JString s) →
          record !! col = Some (JString s))
     ∧ (∀ literal, trade_data !! key = Some (JNumber literal) →
          is_int_literal literal = true →
          record !! col = Some (JString (int_text literal)))
     ∧ (∀ b, trade_data !! key = Some (JBool b) →
          record !! col
          = Some (JString (if b then u "True" else u "False"))))
  ∧ (∀ key', key' ∈ expected_keys →
       ∃ col' tag', (col', (tag', key')) ∈ field_table).
Proof.
  intros Hin shown on_save record widget.
  pose proof (field_table_keys col tag key Hin) as Hkey.
  pose proof (missing_keys_iff trade_data key Hkey) as Hmiss.
  assert (Hshown : shown !! widget
    = Some (default (initial_value other (default (JString []) (trade_data !! key)))
                    (first_state !! widget)))
    by apply (text_inputs_lookup _ _ _ _ col tag key Hin).
  assert (Hsave : on_save !! widget
    = Some (default (default (initial_value other
                                (default (JString []) (trade_data !! key)))
                             (first_state !! widget))
                    (JString <$> edits !! widget))).
  { unfold on_save, type_into. rewrite lookup_union, lookup_fmap, Hshown.
    by destruct (edits !! widget). }
  assert (Hrec : record !! col = on_save !! widget).
  { unfold record.
    rewrite (saved_record_lookup _ _ _ _ _ _ _ col tag key Hin).
    fold widget. by rewrite Hsave. }
  split; [done|].
  split; [intros Hne; unfold missing_warning; by rewrite decide_False|].
  split; [intros He; unfold missing_warning; by rewrite decide_True|].
  split; [done|].
  split; [apply build_record_dom|].
  split; [done|].
  split; [by rewrite Hsave|].
  split; [intros text Ht; by rewrite Hrec, Hsave, Ht|].
  split; [|apply field_table_covers].
  intros He Hf. rewrite Hrec, Hsave, He, Hf. cbn [fmap option_fmap option_map default].
  split; [done|].
  split; [intros Hm; apply Hmiss in Hm; by rewrite Hm|].
  split; [intros s Hs; by rewrite Hs|].
  split; [intros literal Hl Hint; rewrite Hl; simpl; by rewrite Hint|].
  intros b Hb. rewrite Hb. by destruct b.
Qed.

Lemma C9_missing_keys_tolerated_witness :
  (u "header", (u "hdr", u "header")) ∈ field_table
  ∧ (let shown := text_inputs other_C9 ∅ trade_C9 prefix_C9 in
     let on_save := type_into edits_C9 shown in
     let record :=
       saved_record other_C9 on_save trade_C9 prefix_C9 [] []
         (u "2025-06-02T10:00:00") in
     let widget := widget_key (u "hdr") prefix_C9 in
     u "header" ∈ expected_keys
     ∧ (missing_keys trade_C9 ≠ ∅ →
        missing_warning trade_C9 = Some (missing_keys trade_C9))
     ∧ (missing_keys trade_C9 = ∅ → missing_warning trade_C9 = None)
     ∧ (u "header" ∈ missing_keys trade_C9 ↔ trade_C9 !! u "header" = None)
     ∧ dom record = list_to_set data_columns
     ∧ record !! u "header" = on_save !! widget
     ∧ is_Some (on_save !! widget)
     ∧ (∀ text, edits_C9 !! widget = Some text →
          record !! u "header" = Some (JString text))
     ∧ (edits_C9 !! widget = None →
        (∅ : gmap str json) !! widget = None →
        record !! u "header"
        = Some (initial_value other_C9
                  (default (JString []) (trade_C9 !! u "header")))
        ∧ (u "header" ∈ missing_keys trade_C9 →
           record !! u "header" = Some (JString []))
        ∧ (∀ s, trade_C9 !! u "header" = Some (JString s) →
             record !! u "header" = Some (JString s))
        ∧ (∀ literal, trade_C9 !! u "header" = Some (JNumber literal) →
             is_int_literal literal = true →
             record !! u "header" = Some (JString (int_text literal)))
        ∧ (∀ b, trade_C9 !! u "header" = Some (JBool b) →
             record !! u "header"
             = Some (JString (if b then u "True" else u "False"))))
     ∧ (∀ key', key' ∈ expected_keys →
          ∃ col' tag', (col', (tag', key')) ∈ field_table)).
Proof.
  assert (H1 : (u "header", (u "hdr", u "header")) ∈ field_table).
  { by_evaluation. }
  split; [exact H1|].
  exact (C9_missing_keys_tolerated other_C9 ∅ edits_C9 trade_C9 prefix_C9 [] []
           (u "2025-06-02T10:00:00") (u "header") (u "hdr") (u "header") H1).
Defined.

(** C9 as stated fails in two ways.  The object holds the number 123 under
    the key header; the trade is shown and saved with nothing typed, and
    the record holds the text "123", which is what the text input shows,
    not the value of the object.  And the object has no key Type; the user
    types Credit into the widget of the field before saving, and the
    record holds Credit, not the empty string. *)
Lemma C9_counterexample :
  let shown := text_inputs other_C9 ∅ trade_C9n prefix_C9 in
  let untouched :=
    saved_record other_C9 shown trade_C9n prefix_C9 [] []
      (u "2025-06-02T10:00:00") in
  let typed :=
    saved_record other_C9 (type_into edits_C9 shown) trade_C9n prefix_C9 [] []
      (u "2025-06-02T10:00:00") in
  trade_C9n !! u "header" = Some (JNumber (u "123"))
  ∧ untouched !! u "header" = Some (JString (u "123"))
  ∧ untouched !! u "header" ≠ trade_C9n !! u "header"
  ∧ trade_C9n !! u "Type" = None
  ∧ u "Type" ∈ missing_keys trade_C9n
  ∧ typed !! u "type" = Some (JString (u "Credit"))
  ∧ typed !! u "type" ≠ Some (JString []).
Proof.
  intros shown untouched typed.
  assert (H1 : untouched !! u "header" = Some (JString (u "123")))
    by by_running.
  assert (H2 : typed !! u "type" = Some (JString (u "Credit")))
    by by_running.
  assert (H3 : trade_C9n !! u "header" = Some (JNumber (u "123")))
    by by_running.
  split; [exact H3|]. split; [exact H1|].
  split; [rewrite H1, H3; intros [=]|].
  split; [by_running|].
  split; [by_evaluation|].
  split; [exact H2|].
  rewrite H2. intros [=].
Qed.

(** ** Further properties of the parser *)

Lemma parse_block_Some_inv (block : str) (record : gmap str str) :
  parse_block block = Some record →
  3 ≤ length (block_lines block)
  ∧ record = snd (scan (block_lines block) labels
                    (3, positional (block_lines block))).
Proof.
  unfold parse_block. intros Hp.
  destruct (decide (length (block_lines block) < 3)) as [Hlt|Hge].
  - by rewrite parse_lines_None in Hp.
  - rewrite parse_lines_Some in Hp by lia. injection Hp as <-. split; [lia|done].
Qed.

Lemma omap_parse_length (blocks : list str) :
  length (omap parse_block blocks) = length (filter valid_block blocks).
Proof.
  induction blocks as [|b blocks IH]; [done|].
  rewrite filter_cons. cbn [omap list_omap]. unfold valid_block at 1.
  destruct (decide (3 ≤ length (block_lines b))) as [Hv|Hv].
  - destruct (parse_block_valid b Hv) as [r ->]. simpl. by rewrite IH.
  - rewrite parse_block_short by lia. done.
Qed.

(** X1. The parser gives one record for each block with at least 3 usable
    lines, and the page warns that a TXT file has no valid trade block
    exactly when no block of the file has 3 usable lines. *)
Theorem X1_record_count (D : str) :
  length (parse_trade_text D) = length (filter valid_block (trade_blocks D))
  ∧ (no_valid_blocks D = true ↔
     Forall (λ b, length (block_lines b) < 3) (trade_blocks D)).
Proof.
  split; [apply omap_parse_length|].
  unfold no_valid_blocks. rewrite bool_decide_eq_true.
  unfold parse_trade_text.
  induction (trade_blocks D) as [|b blocks IH]; [by split; [constructor|]|].
  cbn [omap list_omap]. split.
  - destruct (parse_block b) as [r|] eqn:Hb; [done|].
    intros H. apply IH in H. constructor; [|done].
    destruct (decide (length (block_lines b) < 3)) as [|Hge]; [done|].
    destruct (parse_block_valid b) as [r Hr]; [lia|congruence].
  - intros H. apply Forall_cons in H as [Hb H].
    rewrite (parse_block_short b Hb). by apply IH.
Qed.

(** Where a label has its value from. *)
Lemma captured_position (lines : list str) (k : nat) (label v : str) :
  labels !! k = Some label →
  snd (scan lines labels (3, positional lines)) !! label = Some v →
  ∃ j, cursor_before lines k ≤ j
       ∧ lines !! j = Some label
       ∧ (∀ i, cursor_before lines k ≤ i < j → lines !! i ≠ Some label)
       ∧ lines !! (j + 1) = Some v
       ∧ cursor_before lines (S k) = j + 2.
Proof.
  intros Hk Hv.
  pose proof (state_after_S lines k label Hk) as HS.
  pose proof (final_lookup_label lines k label Hk) as Hfin.
  pose proof (state_after_lookup_fresh lines k label Hk) as Hfresh.
  unfold cursor_before. rewrite HS.
  destruct (state_after lines k) as [idx parsed] eqn:Hst. cbn [fst snd] in *.
  destruct (scan_label_spec lines idx parsed label) as (j & H1 & H2 & H3 & H4).
  rewrite Hfin, HS, H4 in Hv. rewrite H4.
  destruct (lines !! (j + 1)) as [w|] eqn:Hw; simpl in Hv; [|congruence].
  rewrite lookup_insert_eq in Hv. injection Hv as ->.
  exists j. destruct H3 as [[H3 H3']|H3].
  - done.
  - apply lookup_lt_Some in Hw. lia.
Qed.

Lemma label_pairs_lookup (ls vs : list str) (i : nat) (l v : str) :
  ls !! i = Some l → vs !! i = Some v →
  label_pairs ls vs !! (2 * i) = Some l
  ∧ label_pairs ls vs !! (2 * i + 1) = Some v.
Proof.
  revert vs i. induction ls as [|l0 ls IH]; intros vs i Hl Hv; [done|].
  destruct vs as [|v0 vs]; [done|]. destruct i as [|i].
  - simpl in Hl, Hv. by injection Hl as ->; injection Hv as ->.
  - simpl in Hl, Hv.
    destruct (IH vs i Hl Hv) as [H1 H2].
    replace (2 * S i) with (S (S (2 * i))) by lia.
    replace (S (S (2 * i)) + 1) with (S (S (2 * i + 1))) by lia.
    done.
Qed.

(** With the labels in declared order from the first one on, each followed
    by its value, the round of the [i]-th label starts on its line. *)
Lemma in_order_cursor (h c q : str) (vs tail : list str) (i : nat) :
  i ≤ length vs → i ≤ length labels →
  cursor_before (h :: c :: q :: label_pairs labels vs ++ tail) i = 3 + 2 * i.
Proof.
  set (lines := h :: c :: q :: label_pairs labels vs ++ tail).
  induction i as [|i IH]; intros Hv Hl; [done|].
  destruct (lookup_lt_is_Some_2 labels i) as [l Hli]; [lia|].
  destruct (lookup_lt_is_Some_2 vs i) as [v Hvi]; [lia|].
  destruct (label_pairs_lookup labels vs i l v Hli Hvi) as [H1 H2].
  assert (Hj : lines !! (3 + 2 * i) = Some l)
    by (unfold lines; simpl; by apply lookup_app_l_Some).
  assert (Hj' : lines !! (3 + 2 * i + 1) = Some v)
    by (unfold lines; simpl; by apply lookup_app_l_Some).
  destruct (capture_first lines i (3 + 2 * i) l Hli) as [HS _].
  - rewrite IH by lia. lia.
  - done.
  - rewrite IH by lia. intros i' Hi'. lia.
  - unfold cursor_before. rewrite HS, Hj'. simpl. lia.
Qed.

(** X2. A block whose lines after the three positional ones are the labels
    in declared order from the first label on, each followed by a value
    line, has every one of these values in its record, under its label,
    whatever the values are and whatever lines come after the pairs. *)
Theorem X2_labels_in_order (block h c q : str) (vs tail : list str)
  (i : nat) (label v : str) :
  block_lines block = h :: c :: q :: label_pairs labels vs ++ tail →
  labels !! i = Some label → vs !! i = Some v →
  ∃ record : gmap str str,
    parse_block block = Some record ∧ record !! label = Some v.
Proof.
  intros Hb Hl Hv.
  set (lines := h :: c :: q :: label_pairs labels vs ++ tail) in *.
  exists (snd (scan lines labels (3, positional lines))).
  unfold parse_block. rewrite Hb.
  split; [apply parse_lines_Some; simpl; lia|].
  destruct (label_pairs_lookup labels vs i label v Hl Hv) as [H1 H2].
  pose proof (lookup_lt_Some _ _ _ Hl) as Hil.
  pose proof (lookup_lt_Some _ _ _ Hv) as Hiv.
  pose proof (in_order_cursor h c q vs tail i ltac:(lia) ltac:(lia)) as Hc.
  fold lines in Hc.
  destruct (capture_first lines i (3 + 2 * i) label Hl) as [_ Hr].
  - lia.
  - unfold lines. simpl. by apply lookup_app_l_Some.
  - intros i' Hi'. lia.
  - rewrite Hr. unfold lines. simpl. by apply lookup_app_l_Some.
Qed.

Lemma X2_labels_in_order_witness :
  block_lines block_in_order
  = u "Buy SPY $645 Call 7/31" :: u "$94.00" :: u "2 contracts at $0.47"
    :: label_pairs labels values_in_order ++ [u "placed from the app"]
  ∧ labels !! 2 = Some (u "Time in force")
  ∧ values_in_order !! 2 = Some (u "Day")
  ∧ ∃ record : gmap str str,
      parse_block block_in_order = Some record
      ∧ record !! u "Time in force" = Some (u "Day").
Proof.
  assert (H1 : block_lines block_in_order
    = u "Buy SPY $645 Call 7/31" :: u "$94.00" :: u "2 contracts at $0.47"
      :: label_pairs labels values_in_order ++ [u "placed from the app"])
    by by_running.
  split; [exact H1|]. split; [reflexivity|]. split; [reflexivity|].
  exact (X2_labels_in_order block_in_order _ _ _ values_in_order _ 2 _ _
           H1 eq_refl eq_refl).
Defined.

(** X3. A label that does not occur from the cursor on takes the cursor
    past the end: neither this label nor any label declared after it is in
    the record, wherever those labels stand in the block.  So a block
    without a line [Type] after its positional lines has no labelled field
    at all. *)
Theorem X3_absent_label_hides_later (block : str) (lines : list str)
  (k k' : nat) (label label' : str) (record : gmap str str) :
  block_lines block = lines →
  parse_block block = Some record →
  labels !! k = Some label →
  (∀ i, cursor_before lines k ≤ i → lines !! i ≠ Some label) →
  k ≤ k' → labels !! k' = Some label' →
  record !! label' = None
  ∧ length lines < cursor_before lines (S k)
  ∧ (k = 0 → record = positional lines).
Proof.
  intros Hb Hp Hk Hno Hkk Hk'. subst lines.
  destruct (parse_block_Some_inv block record Hp) as [Hlen ->].
  set (lines := block_lines block) in *.
  destruct (capture_none lines k label Hk Hno) as [Hn Hcur].
  assert (Hlater : ∀ k2 l2, k ≤ k2 → labels !! k2 = Some l2 →
            snd (scan lines labels (3, positional lines)) !! l2 = None).
  { intros k2 l2 Hle Hl2.
    destruct (decide (k2 = k)) as [->|Hne]; [congruence|].
    apply (capture_none lines k2 l2 Hl2).
    intros i Hi. pose proof (cursor_before_mono lines (S k) k2 ltac:(lia)).
    rewrite lookup_ge_None_2; [done|lia]. }
  split; [by apply (Hlater k' label')|]. split; [done|].
  intros ->. apply map_eq. intros key.
  destruct (decide (key ∈ labels)) as [Hin|Hnin].
  - apply list_elem_of_lookup in Hin as [k2 Hk2].
    rewrite (Hlater k2 key ltac:(lia) Hk2).
    symmetry. apply positional_lookup_label. by eapply list_elem_of_lookup_2.
  - by rewrite scan_lookup_notin.
Qed.

Lemma X3_absent_label_hides_later_witness :
  block_lines block_no_type = lines_no_type
  ∧ parse_block block_no_type = Some record_no_type
  ∧ labels !! 0 = Some (u "Type")
  ∧ (∀ i, cursor_before lines_no_type 0 ≤ i →
          lines_no_type !! i ≠ Some (u "Type"))
  ∧ 0 ≤ 6 ∧ labels !! 6 = Some (u "Status")
  ∧ (record_no_type !! u "Status" = None
     ∧ length lines_no_type < cursor_before lines_no_type 1
     ∧ (0 = 0 → record_no_type = positional lines_no_type)).
Proof.
  assert (H1 : block_lines block_no_type = lines_no_type) by by_running.
  assert (H2 : parse_block block_no_type = Some record_no_type) by by_running.
  assert (H3 : ∀ i, cursor_before lines_no_type 0 ≤ i →
                    lines_no_type !! i ≠ Some (u "Type")).
  { intros i _. do 7 (destruct i as [|i]; [simpl; intros [=]|]).
    simpl. intros [=]. }
  split; [exact H1|]. split; [exact H2|]. split; [reflexivity|].
  split; [exact H3|]. split; [lia|]. split; [reflexivity|].
  exact (X3_absent_label_hides_later block_no_type lines_no_type 0 6
           (u "Type") (u "Status") record_no_type
           H1 H2 eq_refl H3 ltac:(lia) eq_refl).
Defined.

Lemma scan_positional_kept (h c q : str) (rest : list str) :
  let lines := h :: c :: q :: rest in
  let record := snd (scan lines labels (3, positional lines)) in
  record !! u "header" = Some h
  ∧ record !! u "Total Cost" = Some c
  ∧ record !! u "Quantity + Price" = Some q.
Proof.
  cbn zeta. rewrite !scan_lookup_notin by by_evaluation.
  unfold positional, line_at. simpl.
  rewrite lookup_insert_ne, lookup_insert_ne, lookup_insert_eq by done.
  rewrite lookup_insert_ne, lookup_insert_eq by done.
  by rewrite lookup_insert_eq.
Qed.

(** X4. The three positional fields of a record are the first three usable
    lines of its block; the label scan never overwrites them. *)
Theorem X4_positional_fields (block : str) (record : gmap str str) :
  parse_block block = Some record →
  ∃ h c q rest,
    block_lines block = h :: c :: q :: rest
    ∧ record !! u "header" = Some h
    ∧ record !! u "Total Cost" = Some c
    ∧ record !! u "Quantity + Price" = Some q.
Proof.
  intros Hp. destruct (parse_block_Some_inv block record Hp) as [Hlen ->].
  destruct (block_lines block) as [|h [|c [|q rest]]] eqn:Hl;
    simpl in Hlen; try lia.
  exists h, c, q, rest. split; [done|]. apply scan_positional_kept.
Qed.

Lemma X4_positional_fields_witness :
  parse_block block_no_type = Some record_no_type
  ∧ ∃ h c q rest,
      block_lines block_no_type = h :: c :: q :: rest
      ∧ record_no_type !! u "header" = Some h
      ∧ record_no_type !! u "Total Cost" = Some c
      ∧ record_no_type !! u "Quantity + Price" = Some q.
Proof.
  assert (H : parse_block block_no_type = Some record_no_type) by by_running.
  split; [exact H|].
  exact (X4_positional_fields block_no_type record_no_type H).
Defined.

Lemma block_lines_space (w1 w2 text : str) :
  all_space w1 → all_space w2 →
  block_lines (w1 ++ text ++ w2) = block_lines text.
Proof.
  intros H1 H2. rewrite !block_lines_usable. unfold splitlines.
  rewrite usable_go_prefix by (done || constructor).
  by rewrite usable_go_suffix.
Qed.

Lemma parse_block_space (w1 w2 text : str) :
  all_space w1 → all_space w2 →
  parse_block (w1 ++ text ++ w2) = parse_block text.
Proof.
  intros H1 H2. unfold parse_block. by rewrite block_lines_space.
Qed.

(** X5. White space around a block or around a document, line breaks
    included, does not change what is parsed. *)
Theorem X5_surrounding_space (w1 w2 text : str) :
  all_space w1 → all_space w2 →
  parse_block (w1 ++ text ++ w2) = parse_block text
  ∧ parse_trade_text (w1 ++ text ++ w2) = parse_trade_text text.
Proof.
  intros H1 H2. split; [by apply parse_block_space|].
  unfold parse_trade_text, trade_blocks.
  by rewrite strip_app_space_l, strip_app_space_r.
Qed.

Lemma X5_surrounding_space_witness :
  all_space [32%N; LF; 9%N] ∧ all_space [CR; LF]
  ∧ (parse_block ([32%N; LF; 9%N] ++ block_no_type ++ [CR; LF])
     = parse_block block_no_type
     ∧ parse_trade_text ([32%N; LF; 9%N] ++ block_no_type ++ [CR; LF])
       = parse_trade_text block_no_type).
Proof.
  assert (H1 : all_space [32%N; LF; 9%N]) by (by repeat constructor).
  assert (H2 : all_space [CR; LF]) by (by repeat constructor).
  split; [exact H1|]. split; [exact H2|].
  exact (X5_surrounding_space _ _ block_no_type H1 H2).
Defined.

(** X6. White space next to a line break of a block does not matter:
    white space at the end of a line, at the start of a line, or lines of
    white space only leave the record of the block as it is. *)
Theorem X6_space_at_line_breaks (a b w : str) :
  all_space w →
  parse_block (a ++ w ++ LF :: b) = parse_block (a ++ LF :: b)
  ∧ parse_block (a ++ LF :: w ++ b) = parse_block (a ++ LF :: b).
Proof.
  intros Hw. unfold parse_block. rewrite !block_lines_usable. unfold splitlines.
  split; f_equal.
  - rewrite app_assoc, !usable_go_app_LF. f_equal. apply usable_go_suffix, Hw.
  - rewrite !usable_go_app_LF. f_equal.
    apply usable_go_prefix; [constructor|done].
Qed.

Lemma X6_space_at_line_breaks_witness :
  all_space [32%N; 9%N]
  ∧ (parse_block (u "Sell QQQ" ++ [32%N; 9%N] ++ LF :: u "$10.00
1 contract at $0.10")
     = parse_block (u "Sell QQQ" ++ LF :: u "$10.00
1 contract at $0.10")
     ∧ parse_block (u "Sell QQQ" ++ LF :: [32%N; 9%N] ++ u "$10.00
1 contract at $0.10")
       = parse_block (u "Sell QQQ" ++ LF :: u "$10.00
1 contract at $0.10")).
Proof.
  assert (H : all_space [32%N; 9%N]) by (by repeat constructor).
  split; [exact H|].
  exact (X6_space_at_line_breaks (u "Sell QQQ") _ _ H).
Defined.

Lemma scan_label_size (lines : list str) (st : nat * gmap str str) (label : str) :
  2 * size (snd st) ≤ Nat.min (fst st) (length lines) + 3 →
  2 * size (snd (scan_label lines st label))
  ≤ Nat.min (fst (scan_label lines st label)) (length lines) + 3.
Proof.
  destruct st as [idx parsed]. cbn [fst snd]. intros Hinv.
  destruct (scan_label_spec lines idx parsed label) as (j & H1 & H2 & H3 & ->).
  destruct (lines !! (j + 1)) as [v|] eqn:Hv; cbn [fst snd]; [|lia].
  apply lookup_lt_Some in Hv.
  pose proof (map_size_insert label v parsed) as Hs.
  destruct (parsed !! label); simpl in Hs; unfold id in Hs; lia.
Qed.

Lemma scan_size (lines ls : list str) (st : nat * gmap str str) :
  2 * size (snd st) ≤ Nat.min (fst st) (length lines) + 3 →
  2 * size (snd (scan lines ls st))
  ≤ Nat.min (fst (scan lines ls st)) (length lines) + 3.
Proof.
  revert st. induction ls as [|l ls IH]; intros st Hst; [done|].
  rewrite scan_cons. apply IH. by apply scan_label_size.
Qed.

(** X7. A record has the 3 positional keys and at most 12 more, and each
    labelled field uses up two lines of the block: a block of [n] usable
    lines gives at most [(n - 3) / 2] labelled fields. *)
Theorem X7_record_size (block : str) (record : gmap str str) :
  parse_block block = Some record →
  3 ≤ size record ≤ 15
  ∧ 2 * (size record - 3) ≤ length (block_lines block) - 3.
Proof.
  intros Hp. destruct (parse_block_Some_inv block record Hp) as [Hlen ->].
  set (lines := block_lines block) in *.
  destruct (scan_dom lines labels (3, positional lines)) as [H1 H2].
  cbn [snd] in H1, H2. rewrite positional_dom in H1, H2.
  apply subseteq_size in H1, H2. rewrite size_dom in H1, H2.
  assert (Hp3 : size (list_to_set positional_keys : gset str) = 3)
    by by_running.
  assert (Hp15 : size (list_to_set positional_keys ∪ list_to_set labels
                        : gset str) = 15) by by_running.
  split; [lia|].
  pose proof (scan_size lines labels (3, positional lines)) as Hs.
  cbn [fst snd] in Hs.
  assert (Hpos : size (positional lines) = 3).
  { rewrite <- size_dom, positional_dom. exact Hp3. }
  rewrite Hpos in Hs. lia.
Qed.

Lemma X7_record_size_witness :
  parse_block block_in_order = Some record_in_order
  ∧ (3 ≤ size record_in_order ≤ 15
     ∧ 2 * (size record_in_order - 3)
       ≤ length (block_lines block_in_order) - 3).
Proof.
  assert (H : parse_block block_in_order = Some record_in_order) by by_running.
  split; [exact H|].
  exact (X7_record_size block_in_order record_in_order H).
Defined.

(** X8. The labels of a record stand in the block in declared order: of
    two captured labels, the one declared first has its label line and its
    value line before the label line of the other. *)
Theorem X8_captures_in_order (block : str) (record : gmap str str)
  (k1 k2 : nat) (A B vA vB : str) :
  parse_block block = Some record →
  labels !! k1 = Some A → labels !! k2 = Some B → k1 < k2 →
  record !! A = Some vA → record !! B = Some vB →
  ∃ j1 j2,
    3 ≤ j1 ∧ j1 + 2 ≤ j2
    ∧ block_lines block !! j1 = Some A
    ∧ block_lines block !! (j1 + 1) = Some vA
    ∧ block_lines block !! j2 = Some B
    ∧ block_lines block !! (j2 + 1) = Some vB.
Proof.
  intros Hp HA HB Hlt HvA HvB.
  destruct (parse_block_Some_inv block record Hp) as [Hlen ->].
  set (lines := block_lines block) in *.
  destruct (captured_position lines k1 A vA HA HvA)
    as (j1 & Hj1 & Hl1 & _ & Hv1 & Hc1).
  destruct (captured_position lines k2 B vB HB HvB)
    as (j2 & Hj2 & Hl2 & _ & Hv2 & _).
  exists j1, j2.
  pose proof (cursor_before_ge lines k1).
  pose proof (cursor_before_mono lines (S k1) k2 ltac:(lia)).
  split; [lia|]. split; [lia|]. done.
Qed.

Lemma X8_captures_in_order_witness :
  parse_block block_in_order = Some record_in_order
  ∧ labels !! 0 = Some (u "Type") ∧ labels !! 2 = Some (u "Time in force")
  ∧ 0 < 2
  ∧ record_in_order !! u "Type" = Some (u "Limit")
  ∧ record_in_order !! u "Time in force" = Some (u "Day")
  ∧ ∃ j1 j2,
      3 ≤ j1 ∧ j1 + 2 ≤ j2
      ∧ block_lines block_in_order !! j1 = Some (u "Type")
      ∧ block_lines block_in_order !! (j1 + 1) = Some (u "Limit")
      ∧ block_lines block_in_order !! j2 = Some (u "Time in force")
      ∧ block_lines block_in_order !! (j2 + 1) = Some (u "Day").
Proof.
  assert (H : parse_block block_in_order = Some record_in_order) by by_running.
  assert (HA : record_in_order !! u "Type" = Some (u "Limit")) by by_running.
  assert (HB : record_in_order !! u "Time in force" = Some (u "Day"))
    by by_running.
  split; [exact H|]. split; [reflexivity|]. split; [reflexivity|].
  split; [lia|]. split; [exact HA|]. split; [exact HB|].
  exact (X8_captures_in_order block_in_order record_in_order 0 2 _ _ _ _
           H eq_refl eq_refl ltac:(lia) HA HB).
Defined.

(** ** Further properties of the record store *)



Lemma fetch_all_trades_elem (t : table) (d : gmap str sql_value) :
  d ∈ fetch_all_trades t ↔ ∃ row, row ∈ tbl_rows t ∧ d = row_dict row.
Proof.
  unfold fetch_all_trades. rewrite list_elem_of_fmap.
  split; intros (row & H1 & H2); exists row.
  - by rewrite merge_sort_Permutation in H2.
  - by rewrite merge_sort_Permutation.
Qed.

Lemma fetch_all_trades_length (t : table) :
  length (fetch_all_trades t) = length (tbl_rows t).
Proof.
  unfold fetch_all_trades. by rewrite length_fmap, merge_sort_Permutation.
Qed.

(** X10. The store only grows: after an insert, [fetch_all_trades] returns
    every trade it returned before and one more, and the result is still
    ordered by [saved_at] descending. *)
Theorem X10_append_only (record : gmap str (option str)) (t t' : table) :
  insert_trade record t = Some t' →
  (∀ d, d ∈ fetch_all_trades t → d ∈ fetch_all_trades t')
  ∧ length (fetch_all_trades t') = S (length (fetch_all_trades t))
  ∧ StronglySorted newer_first_dict (fetch_all_trades t').
Proof.
  intros Hins. unfold insert_trade in Hins.
  destruct (bind_params record) as [cells|]; [|done].
  simpl in Hins. injection Hins as <-.
  split; [|split].
  - intros d. rewrite !fetch_all_trades_elem. simpl.
    intros (row & Hrow & ->). exists row. split; [|done].
    apply elem_of_app. by left.
  - rewrite !fetch_all_trades_length. simpl. rewrite length_app. simpl. lia.
  - unfold fetch_all_trades.
    apply (StronglySorted_fmap row_dict newer_first newer_first_dict); [done|].
    apply StronglySorted_merge_sort; apply _.
Qed.

Lemma X10_append_only_witness :
  insert_trade saved_txt (init_db None) = Some table_saved_once
  ∧ ((∀ d, d ∈ fetch_all_trades (init_db None) →
           d ∈ fetch_all_trades table_saved_once)
     ∧ length (fetch_all_trades table_saved_once)
       = S (length (fetch_all_trades (init_db None)))
     ∧ StronglySorted newer_first_dict (fetch_all_trades table_saved_once)).
Proof.
  assert (H : insert_trade saved_txt (init_db None) = Some table_saved_once)
    by by_running.
  split; [exact H|].
  exact (X10_append_only saved_txt (init_db None) table_saved_once H).
Defined.

(** The rows of a store built from nothing by inserts. *)
Lemma fresh_rows (records : list (gmap str (option str))) (t : table) :
  insert_all records (init_db None) = Some t →
  length (tbl_rows t) = length records
  ∧ ∀ i row, tbl_rows t !! i = Some row →
      ∃ r cells, records !! i = Some r ∧ bind_params r = Some cells
                 ∧ row = SqlInteger (Z.of_nat i + 1) :: cells.
Proof.
  intros Hins. destruct (insert_all_rows records _ t Hins) as [Hlen Hrows].
  simpl in Hlen, Hrows. split; [done|].
  intros i row Hrow. pose proof (lookup_lt_Some _ _ _ Hrow) as Hi.
  destruct (lookup_lt_is_Some_2 records i) as [r Hr]; [lia|].
  destruct (Hrows i r Hr) as (cells & Hb & Hrow').
  exists r, cells. split; [done|]. split; [done|].
  rewrite Hrow in Hrow'. injection Hrow' as ->. do 2 f_equal. lia.
Qed.

(** X11. The [id] of a saved trade identifies it: the trades returned by
    [fetch_all_trades] have pairwise different ids, the ids of the inserts
    in their order, starting at 1.  Saving the same record twice gives two
    trades, which differ in their id only. *)
Theorem X11_ids_unique (records : list (gmap str (option str))) (t : table) :
  insert_all records (init_db None) = Some t →
  NoDup ((λ d : gmap str sql_value, d !! u "id") <$> fetch_all_trades t)
  ∧ (∀ d, d ∈ fetch_all_trades t →
       ∃ i, i < length records
            ∧ d !! u "id" = Some (SqlInteger (Z.of_nat i + 1)))
  ∧ (∀ i j r, i ≠ j → records !! i = Some r → records !! j = Some r →
       ∃ di dj, di ∈ fetch_all_trades t ∧ dj ∈ fetch_all_trades t
                ∧ di !! u "id" ≠ dj !! u "id"
                ∧ ∀ c, c ∈ data_columns → di !! c = dj !! c).
Proof.
  intros Hins. destruct (fresh_rows records t Hins) as [Hlen Hrows].
  split; [|split].
  - unfold fetch_all_trades. rewrite <- list_fmap_compose.
    rewrite merge_sort_Permutation. apply NoDup_alt.
    intros i j x. rewrite !list_lookup_fmap.
    destruct (tbl_rows t !! i) as [rowi|] eqn:Hi; [|done].
    destruct (tbl_rows t !! j) as [rowj|] eqn:Hj; [|done].
    destruct (Hrows i rowi Hi) as (ri & ci & _ & _ & ->).
    destruct (Hrows j rowj Hj) as (rj & cj & _ & _ & ->).
    simpl. rewrite !row_dict_id. intros [= <-] [= Heq]. lia.
  - intros d. rewrite fetch_all_trades_elem. intros (row & Hrow & ->).
    apply list_elem_of_lookup in Hrow as [i Hi].
    destruct (Hrows i row Hi) as (r & cells & _ & _ & ->).
    exists i. apply lookup_lt_Some in Hi. split; [lia|apply row_dict_id].
  - intros i j r Hne Hi Hj.
    destruct (insert_all_rows records _ t Hins) as [_ Hr]. simpl in Hr.
    destruct (Hr i r Hi) as (ci & Hbi & Hrowi).
    destruct (Hr j r Hj) as (cj & Hbj & Hrowj).
    exists (row_dict (SqlInteger (0 + 1 + Z.of_nat i) :: ci)),
           (row_dict (SqlInteger (0 + 1 + Z.of_nat j) :: cj)).
    split; [|split; [|split]].
    + apply fetch_all_trades_elem. eexists. split; [|done].
      by eapply list_elem_of_lookup_2.
    + apply fetch_all_trades_elem. eexists. split; [|done].
      by eapply list_elem_of_lookup_2.
    + rewrite !row_dict_id. intros Heq. inversion Heq. lia.
    + intros c Hc.
      by rewrite (bind_params_lookup r ci c _ Hbi Hc),
                 (bind_params_lookup r cj c _ Hbj Hc).
Qed.

Lemma X11_ids_unique_witness :
  insert_all [saved_txt; saved_txt] (init_db None) = Some table_saved_twice
  ∧ (NoDup ((λ d : gmap str sql_value, d !! u "id")
              <$> fetch_all_trades table_saved_twice)
     ∧ (∀ d, d ∈ fetch_all_trades table_saved_twice →
          ∃ i, i < length [saved_txt; saved_txt]
               ∧ d !! u "id" = Some (SqlInteger (Z.of_nat i + 1)))
     ∧ (∀ i j r, i ≠ j → [saved_txt; saved_txt] !! i = Some r →
          [saved_txt; saved_txt] !! j = Some r →
          ∃ di dj, di ∈ fetch_all_trades table_saved_twice
                   ∧ dj ∈ fetch_all_trades table_saved_twice
                   ∧ di !! u "id" ≠ dj !! u "id"
                   ∧ ∀ c, c ∈ data_columns → di !! c = dj !! c)).
Proof.
  assert (H : insert_all [saved_txt; saved_txt] (init_db None)
              = Some table_saved_twice) by by_running.
  split; [exact H|].
  exact (X11_ids_unique [saved_txt; saved_txt] table_saved_twice H).
Defined.

Lemma row_dict_dom (row : list sql_value) :
  length row = length columns → dom (row_dict row) = list_to_set columns.
Proof.
  intros Hlen. unfold row_dict.
  rewrite dom_list_to_map_L, fst_zip by lia. done.
Qed.

Lemma view_row_Some (d : gmap str sql_value) :
  dom d = list_to_set columns →
  ∃ v, view_row d = Some v
       ∧ ∀ name col, (name, col) ∈ view_columns → v !! name = d !! col.
Proof.
  intros Hdom. unfold view_row.
  destruct (mapM (λ c, pair c.1 <$> d !! c.2) view_columns) as [entries|] eqn:Hm.
  - exists (list_to_map entries). split; [done|].
    apply mapM_Some in Hm. intros name col Hin.
    apply list_elem_of_lookup in Hin as [i Hi].
    destruct (Forall2_lookup_l _ _ _ _ _ Hm Hi) as (e & He & Hf).
    simpl in Hf. destruct (d !! col) as [x|] eqn:Hx; [|done].
    injection Hf as <-. apply elem_of_list_to_map.
    + assert (Hfst : entries.*1 = view_columns.*1).
      { clear -Hm. induction Hm as [|c e cs es Hc Hm IH]; [done|].
        rewrite !fmap_cons, IH. f_equal. destruct (d !! c.2); [|done].
        by injection Hc as <-. }
      rewrite Hfst. by_evaluation.
    + by eapply list_elem_of_lookup_2.
  - exfalso. apply mapM_None_1, Exists_exists in Hm as (c & Hc & Hn).
    assert (Hcol : c.2 ∈ columns).
    { assert (H : Forall (λ c, c.2 ∈ columns) view_columns) by by_evaluation.
      rewrite Forall_forall in H. by apply H. }
    assert (Hd : c.2 ∈ dom d) by (rewrite Hdom; by apply elem_of_list_to_set).
    apply elem_of_dom in Hd as [x Hx]. by rewrite Hx in Hn.
Qed.

(** X12. Every trade that [fetch_all_trades] returns from a store built by
    inserts has exactly the 19 columns as keys, so the table of saved
    trades is built without a [KeyError]: it has a row for every trade,
    which shows under each heading the value of its column. *)
Theorem X12_saved_trades_view (records : list (gmap str (option str)))
  (t : table) :
  insert_all records (init_db None) = Some t →
  (∀ d, d ∈ fetch_all_trades t → dom d = list_to_set columns)
  ∧ ∃ rows,
      saved_trades_view t = Some rows
      ∧ length rows = length records
      ∧ ∀ i d v, fetch_all_trades t !! i = Some d → rows !! i = Some v →
          ∀ name col, (name, col) ∈ view_columns → v !! name = d !! col.
Proof.
  intros Hins. destruct (fresh_rows records t Hins) as [Hlen Hrows].
  assert (Hdom : ∀ d, d ∈ fetch_all_trades t → dom d = list_to_set columns).
  { intros d. rewrite fetch_all_trades_elem. intros (row & Hrow & ->).
    apply list_elem_of_lookup in Hrow as [i Hi].
    destruct (Hrows i row Hi) as (r & cells & _ & Hb & ->).
    apply row_dict_dom. simpl. by rewrite (bind_params_length _ _ Hb). }
  split; [done|]. unfold saved_trades_view.
  destruct (mapM view_row (fetch_all_trades t)) as [rows|] eqn:Hm.
  - exists rows. apply mapM_Some in Hm. split; [done|]. split.
    + rewrite <- (Forall2_length _ _ _ Hm), fetch_all_trades_length. done.
    + intros i d v Hd Hv name col Hin.
      destruct (Forall2_lookup_l _ _ _ _ _ Hm Hd) as (v' & Hv' & Hview).
      rewrite Hv in Hv'. injection Hv' as <-.
      destruct (view_row_Some d) as (v'' & Hv'' & Hval).
      { apply Hdom. by eapply list_elem_of_lookup_2. }
      rewrite Hview in Hv''. injection Hv'' as <-. by apply Hval.
  - exfalso. apply mapM_None_1, Exists_exists in Hm as (d & Hd & Hn).
    destruct (view_row_Some d (Hdom d Hd)) as (v & Hv & _). congruence.
Qed.

Lemma X12_saved_trades_view_witness :
  insert_all [saved_txt; saved_txt] (init_db None) = Some table_saved_twice
  ∧ ((∀ d, d ∈ fetch_all_trades table_saved_twice →
           dom d = list_to_set columns)
     ∧ ∃ rows,
         saved_trades_view table_saved_twice = Some rows
         ∧ length rows = length [saved_txt; saved_txt]
         ∧ ∀ i d v, fetch_all_trades table_saved_twice !! i = Some d →
             rows !! i = Some v →
             ∀ name col, (name, col) ∈ view_columns → v !! name = d !! col).
Proof.
  assert (H : insert_all [saved_txt; saved_txt] (init_db None)
              = Some table_saved_twice) by by_running.
  split; [exact H|].
  exact (X12_saved_trades_view [saved_txt; saved_txt] table_saved_twice H).
Defined.

(** ** Further properties of the records built for saving *)



Lemma build_record_txt_dom (session_state trade_data : gmap str str)
  (prefix suggestion comment saved_at : str) :
  dom (build_record_txt session_state trade_data prefix
         suggestion comment saved_at)
  = list_to_set data_columns.
Proof.
  unfold build_record_txt.
  rewrite dom_list_to_map_L, fmap_app, <- list_fmap_compose. done.
Qed.

(** A record with all the columns is bound without an exception. *)
Lemma bind_params_Some (record : gmap str (option str)) :
  (∀ c, c ∈ data_columns → is_Some (record !! c)) →
  is_Some (bind_params record).
Proof.
  intros Hall. destruct (bind_params record) as [cells|] eqn:Hb; [done|].
  exfalso. unfold bind_params in Hb.
  apply mapM_None_1, Exists_exists in Hb as (c & Hc & Hn).
  destruct (Hall c Hc) as [x Hx]. by rewrite Hx in Hn.
Qed.

Lemma save_txt_trade_row (session_state trade_data : gmap str str)
  (prefix suggestion comment saved_at : str) (t : table) :
  ∃ cells,
    bind_params (Some <$> build_record_txt session_state trade_data prefix
                            suggestion comment saved_at) = Some cells
    ∧ save_txt_trade session_state trade_data prefix suggestion comment
        saved_at t
      = Some {| tbl_rows := tbl_rows t ++ [SqlInteger (tbl_seq t + 1) :: cells];
                tbl_seq := tbl_seq t + 1 |}.
Proof.
  unfold save_txt_trade, insert_trade.
  destruct (bind_params_Some
              (Some <$> build_record_txt session_state trade_data prefix
                          suggestion comment saved_at)) as [cells Hb].
  - intros c Hc. rewrite lookup_fmap.
    assert (Hd : c ∈ dom (build_record_txt session_state trade_data prefix
                            suggestion comment saved_at))
      by (rewrite build_record_txt_dom; by apply elem_of_list_to_set).
    apply elem_of_dom in Hd as [x ->]. done.
  - exists cells. split; [done|]. rewrite Hb. reflexivity.
Qed.

(** X13. The record built for saving, in the JSON section and in the TXT
    section, has exactly the 18 columns of the [INSERT] as keys, whatever
    the trade and the session state hold; so saving a TXT trade never
    raises for a missing parameter. *)
Theorem X13_record_has_the_columns
  (session_json trade_json : gmap str json)
  (session_state trade_data : gmap str str)
  (prefix suggestion comment saved_at : str) (t : table) :
  dom (build_record session_json trade_json prefix suggestion comment saved_at)
  = list_to_set data_columns
  ∧ dom (build_record_txt session_state trade_data prefix
           suggestion comment saved_at)
    = list_to_set data_columns
  ∧ is_Some (save_txt_trade session_state trade_data prefix
               suggestion comment saved_at t).
Proof.
  split; [apply build_record_dom|]. split; [apply build_record_txt_dom|].
  destruct (save_txt_trade_row session_state trade_data prefix suggestion
              comment saved_at t) as (cells & _ & ->).
  done.
Qed.

(** ** Further properties of the TXT section *)

(** A label without a value sends the cursor to the end or beyond. *)
Lemma uncaptured_cursor (lines : list str) (k : nat) (label : str) :
  labels !! k = Some label →
  snd (scan lines labels (3, positional lines)) !! label = None →
  length lines ≤ cursor_before lines (S k).
Proof.
  intros Hk Hnone.
  pose proof (state_after_S lines k label Hk) as HS.
  pose proof (final_lookup_label lines k label Hk) as Hfin.
  unfold cursor_before. rewrite HS.
  destruct (state_after lines k) as [idx parsed] eqn:Hst.
  destruct (scan_label_spec lines idx parsed label) as (j & H1 & H2 & H3 & H4).
  rewrite Hfin, HS, H4 in Hnone. rewrite H4.
  destruct (lines !! (j + 1)) as [w|] eqn:Hw; simpl in *.
  - by rewrite lookup_insert_eq in Hnone.
  - apply lookup_ge_None in Hw. lia.
Qed.

Lemma uncaptured_later (lines : list str) (k k' : nat) (label label' : str) :
  labels !! k = Some label → labels !! k' = Some label' → k ≤ k' →
  snd (scan lines labels (3, positional lines)) !! label = None →
  snd (scan lines labels (3, positional lines)) !! label' = None.
Proof.
  intros Hk Hk' Hle Hnone.
  destruct (decide (k' = k)) as [->|Hne]; [congruence|].
  pose proof (uncaptured_cursor lines k label Hk Hnone) as Hc.
  pose proof (cursor_before_mono lines (S k) k' ltac:(lia)) as Hm.
  apply (capture_none lines k' label' Hk').
  intros i Hi. rewrite lookup_ge_None_2; [done|lia].
Qed.

Lemma expected_keys_split :
  expected_keys = list_to_set positional_keys ∪ list_to_set labels.
Proof. unfold expected_keys. by rewrite <- list_to_set_app_L. Qed.

Lemma missing_keys_txt_iff (block : str) (trade_data : gmap str str) (key : str) :
  parse_block block = Some trade_data →
  key ∈ missing_keys_txt trade_data ↔ key ∈ labels ∧ trade_data !! key = None.
Proof.
  intros Hp. destruct (parse_block_Some_inv block trade_data Hp) as [Hlen ->].
  set (lines := block_lines block) in *.
  destruct (scan_dom lines labels (3, positional lines)) as [H1 _].
  cbn [snd] in H1. rewrite positional_dom in H1.
  unfold missing_keys_txt. rewrite elem_of_difference, not_elem_of_dom.
  rewrite expected_keys_split, elem_of_union, !elem_of_list_to_set.
  split.
  - intros [[Hpos|Hlab] Hn]; [|done].
    exfalso. apply not_elem_of_dom in Hn. apply Hn, H1.
    by apply elem_of_list_to_set.
  - intros [Hlab Hn]. split; [by right|done].
Qed.

(** X14. The warning of the TXT section on a parsed trade.  The fields it
    lists are labels that got no value, never one of the three positional
    keys, and they form a tail of the label list: with a label, every
    label declared after it is listed too.  There is no warning exactly
    when all 12 labels have a value, and a block with fewer than 27 usable
    lines is always warned about. *)
Theorem X14_txt_missing_fields (block : str) (trade_data : gmap str str) :
  parse_block block = Some trade_data →
  (∀ key, key ∈ missing_keys_txt trade_data
          ↔ key ∈ labels ∧ trade_data !! key = None)
  ∧ (∀ k k' label label',
       labels !! k = Some label → labels !! k' = Some label' → k ≤ k' →
       label ∈ missing_keys_txt trade_data →
       label' ∈ missing_keys_txt trade_data)
  ∧ (missing_warning_txt trade_data = None
     ↔ ∀ label, label ∈ labels → is_Some (trade_data !! label))
  ∧ (length (block_lines block) < 27 →
     missing_warning_txt trade_data = Some (missing_keys_txt trade_data)).
Proof.
  intros Hp.
  pose proof (missing_keys_txt_iff block trade_data) as Hiff.
  assert (Hwarn : missing_warning_txt trade_data = None
     ↔ ∀ label, label ∈ labels → is_Some (trade_data !! label)).
  { unfold missing_warning_txt. cbn zeta.
    destruct (decide (missing_keys_txt trade_data = ∅)) as [He|Hne].
    - split; [|done]. intros _ label Hl.
      destruct (trade_data !! label) as [v|] eqn:Hv; [done|].
      exfalso. assert (label ∈ missing_keys_txt trade_data) as Hin
        by by apply Hiff.
      rewrite He in Hin. by apply not_elem_of_empty in Hin.
    - split; [done|]. intros Hall. exfalso. apply Hne.
      apply set_eq. intros key. rewrite (Hiff key Hp).
      split; [|intros H; by apply not_elem_of_empty in H]. intros [Hl Hn].
      destruct (Hall key Hl) as [v Hv]. congruence. }
  split; [intros key; by apply Hiff|]. split; [|split; [done|]].
  - intros k k' label label' Hk Hk' Hle.
    rewrite !(Hiff _ Hp). intros [_ Hn].
    split; [by eapply list_elem_of_lookup_2|].
    destruct (parse_block_Some_inv block trade_data Hp) as [_ ->].
    by apply (uncaptured_later _ k k' label label').
  - intros Hshort.
    destruct (decide (missing_keys_txt trade_data = ∅)) as [He|Hne].
    + exfalso.
      assert (Hm : missing_warning_txt trade_data = None).
      { unfold missing_warning_txt. cbn zeta. by rewrite decide_True. }
      pose proof (proj1 Hwarn Hm) as Hall. clear Hm.
      destruct (parse_block_Some_inv block trade_data Hp) as [Hlen ->].
      set (lines := block_lines block) in *.
      pose proof (scan_size lines labels (3, positional lines)) as Hs.
      cbn [fst snd] in Hs.
      assert (Hpos : size (positional lines) = 3).
      { rewrite <- size_dom, positional_dom. by_running. }
      rewrite Hpos in Hs.
      destruct (scan_dom lines labels (3, positional lines)) as [H1 _].
      cbn [snd] in H1. rewrite positional_dom in H1.
      assert (Hsub : list_to_set positional_keys ∪ list_to_set labels
                     ⊆ dom (snd (scan lines labels (3, positional lines)))).
      { apply union_subseteq. split; [done|].
        intros key Hk. apply elem_of_list_to_set in Hk.
        apply elem_of_dom. by apply Hall. }
      apply subseteq_size in Hsub. rewrite size_dom in Hsub.
      assert (Hp15 : size (list_to_set positional_keys ∪ list_to_set labels
                            : gset str) = 15) by by_running.
      lia.
    + unfold missing_warning_txt. cbn zeta. by rewrite decide_False.
Qed.

Lemma X14_txt_missing_fields_witness :
  parse_block block_in_order = Some record_in_order
  ∧ ((∀ key, key ∈ missing_keys_txt record_in_order
             ↔ key ∈ labels ∧ record_in_order !! key = None)
     ∧ (∀ k k' label label',
          labels !! k = Some label → labels !! k' = Some label' → k ≤ k' →
          label ∈ missing_keys_txt record_in_order →
          label' ∈ missing_keys_txt record_in_order)
     ∧ (missing_warning_txt record_in_order = None
        ↔ ∀ label, label ∈ labels → is_Some (record_in_order !! label))
     ∧ (length (block_lines block_in_order) < 27 →
        missing_warning_txt record_in_order
        = Some (missing_keys_txt record_in_order))).
Proof.
  assert (H : parse_block block_in_order = Some record_in_order) by by_running.
  split; [exact H|].
  exact (X14_txt_missing_fields block_in_order record_in_order H).
Defined.

(** ** Saving and listing *)


(** ** The keys of the widgets *)

Lemma u_inj (s1 s2 : string) : u s1 = u s2 → s1 = s2.
Proof.
  revert s2. induction s1 as [|a s1 IH]; intros [|b s2] H; try done.
  simpl in H. injection H as Ha Hs. f_equal; [|by apply IH].
  apply (f_equal ascii_of_N) in Ha. by rewrite !ascii_N_embedding in Ha.
Qed.

Lemma decimal_inj (i1 i2 : nat) : decimal i1 = decimal i2 → i1 = i2.
Proof.
  unfold decimal. intros H. apply u_inj in H.
  apply (f_equal NilEmpty.uint_of_string) in H.
  rewrite !NilEmpty.usu in H. injection H as H.
  by apply Unsigned.to_uint_inj.
Qed.

Lemma decimal_digits (i : nat) : Forall (λ c, is_digit c = true) (decimal i).
Proof.
  unfold decimal. generalize (Nat.to_uint i). intros d.
  induction d; simpl; constructor; done.
Qed.

(** Two strings that start with a run of characters of one kind, up to a
    first character not of this kind, have the same run and the same
    rest when they are equal. *)
Lemma split_at_stop (P : N → Prop) (d1 d2 r1 r2 : str) (x1 x2 : N) :
  Forall P d1 → Forall P d2 → ¬ P x1 → ¬ P x2 →
  d1 ++ x1 :: r1 = d2 ++ x2 :: r2 → d1 = d2 ∧ x1 = x2 ∧ r1 = r2.
Proof.
  intros H1 H2 Hx1 Hx2. revert d2 H2.
  induction H1 as [|a d1 Ha H1 IH]; intros d2 H2 Heq.
  - destruct H2 as [|b d2 Hb H2]; simpl in Heq.
    + by injection Heq as -> ->.
    + injection Heq as -> _. done.
  - destruct H2 as [|b d2 Hb H2]; simpl in Heq.
    + injection Heq as -> _. done.
    + injection Heq as -> Heq. destruct (IH d2 H2 Heq) as (-> & -> & ->). done.
Qed.

Lemma section_prefix_inj (s1 s2 : section) (name1 name2 : str) (i1 i2 : nat) :
  section_prefix s1 name1 i1 = section_prefix s2 name2 i2 →
  s1 = s2 ∧ name1 = name2 ∧ i1 = i2.
Proof.
  intros H. apply (f_equal (@rev N)) in H.
  assert (Hd : ∀ i, Forall (λ c, is_digit c = true) (rev (decimal i))).
  { intros i. apply Forall_rev, decimal_digits. }
  assert (Hj : rev (u "_json_trade")
               = 101%N :: rev (u "_json_trad")) by reflexivity.
  assert (Ht : rev (u "_txt_trade")
               = 101%N :: rev (u "_txt_trad")) by reflexivity.
  assert (He : ¬ is_digit 101 = true) by done.
  destruct s1, s2; unfold section_prefix, json_prefix, txt_prefix in H;
    rewrite !rev_app_distr, <- !app_assoc, ?Hj, ?Ht, <- !app_comm_cons in H;
    destruct (split_at_stop _ _ _ _ _ _ _ (Hd i1) (Hd i2) He He H)
      as (Hi & _ & Hr);
    apply (f_equal (@rev N)) in Hi; rewrite !rev_involutive in Hi;
    apply decimal_inj in Hi.
  - apply app_inv_head in Hr. apply (f_equal (@rev N)) in Hr.
    rewrite !rev_involutive in Hr. done.
  - exfalso. vm_compute in Hr. discriminate Hr.
  - exfalso. vm_compute in Hr. discriminate Hr.
  - apply app_inv_head in Hr. apply (f_equal (@rev N)) in Hr.
    rewrite !rev_involutive in Hr. done.
Qed.

Lemma widget_tags_plain (tag : str) :
  tag ∈ widget_tags → Forall (λ c, c ≠ 95%N) tag.
Proof.
  intros Hin.
  assert (H : Forall (λ t : str, Forall (λ c, c ≠ 95%N) t) widget_tags)
    by by_evaluation.
  rewrite Forall_forall in H. by apply H.
Qed.

Lemma widget_key_inj (tag1 tag2 prefix1 prefix2 : str) :
  tag1 ∈ widget_tags → tag2 ∈ widget_tags →
  widget_key tag1 prefix1 = widget_key tag2 prefix2 →
  tag1 = tag2 ∧ prefix1 = prefix2.
Proof.
  intros H1 H2 Heq. unfold widget_key in Heq.
  change (u "_") with [95%N] in Heq. rewrite <- !app_comm_cons, !app_nil_l in Heq.
  destruct (split_at_stop (λ c, c ≠ 95%N) _ _ _ _ _ _
              (widget_tags_plain _ H1) (widget_tags_plain _ H2)
              ltac:(tauto) ltac:(tauto) Heq) as (-> & _ & ->).
  done.
Qed.

Lemma field_tag_is_widget_tag (col tag key : str) :
  (col, (tag, key)) ∈ field_table → tag ∈ widget_tags.
Proof.
  intros Hin. unfold widget_tags. apply elem_of_app. left.
  apply list_elem_of_fmap. by exists (col, (tag, key)).
Qed.

(** X16. The key of a widget names one field of one trade: two keys are
    equal only for the same tag, the same section (JSON or TXT), the same
    file name and the same index of the trade.  So what is typed into the
    widget of another trade, of another file or of the other section never
    reaches the record built for a trade. *)
Theorem X16_widget_keys (s1 s2 : section) (name1 name2 : str) (i1 i2 : nat)
  (tag1 tag2 : str) :
  tag1 ∈ widget_tags → tag2 ∈ widget_tags →
  (widget_key tag1 (section_prefix s1 name1 i1)
   = widget_key tag2 (section_prefix s2 name2 i2)
   ↔ tag1 = tag2 ∧ s1 = s2 ∧ name1 = name2 ∧ i1 = i2)
  ∧ ((s1, name1, i1) ≠ (s2, name2, i2) →
     (∀ (session_state trade_data : gmap str json) (v : json)
        (suggestion comment saved_at : str),
        build_record
          (<[widget_key tag1 (section_prefix s1 name1 i1) := v]> session_state)
          trade_data (section_prefix s2 name2 i2) suggestion comment saved_at
        = build_record session_state trade_data (section_prefix s2 name2 i2)
            suggestion comment saved_at)
     ∧ (∀ (session_state trade_data : gmap str str) (v : str)
          (suggestion comment saved_at : str),
          build_record_txt
            (<[widget_key tag1 (section_prefix s1 name1 i1) := v]> session_state)
            trade_data (section_prefix s2 name2 i2) suggestion comment saved_at
          = build_record_txt session_state trade_data
              (section_prefix s2 name2 i2) suggestion comment saved_at)).
Proof.
  intros H1 H2.
  assert (Hinj : ∀ tag, tag ∈ widget_tags →
            widget_key tag1 (section_prefix s1 name1 i1)
            = widget_key tag (section_prefix s2 name2 i2) →
            tag1 = tag ∧ s1 = s2 ∧ name1 = name2 ∧ i1 = i2).
  { intros tag Htag Heq.
    destruct (widget_key_inj _ _ _ _ H1 Htag Heq) as [-> Hp].
    by apply section_prefix_inj in Hp. }
  split.
  - split; [by apply Hinj|]. by intros (-> & -> & -> & ->).
  - intros Hne.
    assert (Hother : ∀ col tag key, (col, (tag, key)) ∈ field_table →
              widget_key tag1 (section_prefix s1 name1 i1)
              ≠ widget_key tag (section_prefix s2 name2 i2)).
    { intros col tag key Hin Heq.
      destruct (Hinj tag (field_tag_is_widget_tag _ _ _ Hin) Heq)
        as (_ & -> & -> & ->). done. }
    split.
    + intros session_state trade_data v suggestion comment saved_at.
      unfold build_record. do 2 f_equal.
      apply list_fmap_ext. intros i [col [tag key]] Hi. cbn [fst snd].
      f_equal. unfold field_value.
      rewrite lookup_insert_ne; [done|].
      apply (Hother col tag key). by eapply list_elem_of_lookup_2.
    + intros session_state trade_data v suggestion comment saved_at.
      unfold build_record_txt. do 2 f_equal.
      apply list_fmap_ext. intros i [col [tag key]] Hi. cbn [fst snd].
      f_equal. unfold field_value_txt.
      rewrite lookup_insert_ne; [done|].
      apply (Hother col tag key). by eapply list_elem_of_lookup_2.
Qed.

Lemma X16_widget_keys_witness :
  u "hdr" ∈ widget_tags ∧ u "comm" ∈ widget_tags
  ∧ ((widget_key (u "hdr") (section_prefix JsonSection (u "trades") 0)
      = widget_key (u "comm") (section_prefix TxtSection (u "trades") 0)
      ↔ u "hdr" = u "comm" ∧ JsonSection = TxtSection
        ∧ u "trades" = u "trades" ∧ 0 = 0)
     ∧ ((JsonSection, u "trades", 0) ≠ (TxtSection, u "trades", 0) →
        (∀ (session_state trade_data : gmap str json) (v : json)
           (suggestion comment saved_at : str),
           build_record
             (<[widget_key (u "hdr") (section_prefix JsonSection (u "trades") 0)
                := v]> session_state)
             trade_data (section_prefix TxtSection (u "trades") 0)
             suggestion comment saved_at
           = build_record session_state trade_data
               (section_prefix TxtSection (u "trades") 0)
               suggestion comment saved_at)
        ∧ (∀ (session_state trade_data : gmap str str) (v : str)
             (suggestion comment saved_at : str),
             build_record_txt
               (<[widget_key (u "hdr")
                    (section_prefix JsonSection (u "trades") 0) := v]>
                  session_state)
               trade_data (section_prefix TxtSection (u "trades") 0)
               suggestion comment saved_at
             = build_record_txt session_state trade_data
                 (section_prefix TxtSection (u "trades") 0)
                 suggestion comment saved_at))).
Proof.
  assert (H1 : u "hdr" ∈ widget_tags) by by_evaluation.
  assert (H2 : u "comm" ∈ widget_tags) by by_evaluation.
  split; [exact H1|]. split; [exact H2|].
  exact (X16_widget_keys JsonSection TxtSection (u "trades") (u "trades") 0 0
           (u "hdr") (u "comm") H1 H2).
Defined.

(** ** Documents put together *)

Lemma ends_in_ink_app (a r : str) : ends_in_ink r → ends_in_ink (a ++ r).
Proof. intros (r0 & c & -> & Hc). exists (a ++ r0), c. by rewrite app_assoc. Qed.

Lemma ends_in_ink_suffix (a b : str) :
  ends_in_ink (a ++ b) → b ≠ [] → ends_in_ink b.
Proof.
  intros (s0 & c & Heq & Hc) Hb.
  destruct (exists_last Hb) as (b0 & c' & ->).
  rewrite app_assoc in Heq. apply app_inj_tail in Heq as [_ ->].
  by exists b0, c.
Qed.

Lemma ends_in_ink_not_space (s : str) : ends_in_ink s → all_space s → False.
Proof.
  intros (s0 & c & -> & Hc) Hs. apply Forall_app in Hs as [_ Hs].
  apply Forall_cons in Hs as [Hs _]. congruence.
Qed.

Lemma lstrip_ends_in_ink (x : str) :
  ends_in_ink x → ends_in_ink (lstrip x) ∧ no_lead_space (lstrip x).
Proof.
  intros (x0 & c & -> & Hc). split; [|apply lstrip_no_lead].
  destruct (lstrip_snoc_keep x0 c Hc) as (z & ->). by exists z, c.
Qed.

Lemma no_lead_space_app (r t : str) :
  no_lead_space r → r ≠ [] → no_lead_space (r ++ t).
Proof. by destruct r. Qed.

Lemma strip_shape (s : str) :
  no_lead_space (strip s) ∧ (strip s ≠ [] → ends_in_ink (strip s)).
Proof.
  split; [apply rstrip_no_lead, lstrip_no_lead|].
  unfold strip, rstrip. intros Hne.
  pose proof (lstrip_no_lead (rev (lstrip s))) as Hno.
  destruct (lstrip (rev (lstrip s))) as [|c y]; [done|].
  simpl in *. by exists (rev y), c.
Qed.

Lemma strip_id (x : str) : no_lead_space x → ends_in_ink x → strip x = x.
Proof.
  intros Hno (x0 & c & -> & Hc). unfold strip. rewrite lstrip_id by done.
  unfold rstrip. rewrite rev_app_distr. simpl. rewrite Hc. simpl.
  by rewrite rev_involutive.
Qed.

(** *** A match inside white space *)

Lemma re_search_cons (r : regex) (c : N) (s : str) :
  re_search r (c :: s) =
  match re_match r (c :: s) with
  | Some rest => Some ([], rest)
  | None =>
      match re_search r s with
      | Some (pre, rest) => Some (c :: pre, rest)
      | None => None
      end
  end.
Proof. reflexivity. Qed.

Lemma after_last_LF_None_head (w r : str) :
  after_last_LF w = None → no_lead_space r → head (w ++ r) ≠ Some LF.
Proof.
  destruct w as [|c w]; simpl.
  - intros _. destruct r as [|c r]; simpl; [done|]. by intros Hc [= ->].
  - destruct (after_last_LF w); [done|].
    destruct (c =? LF)%N eqn:Hc; [done|]. apply N.eqb_neq in Hc.
    intros _ _ [= ->]. done.
Qed.

Lemma greedy_LF_stop (s : str) :
  head s ≠ Some LF → greedy (Lit LF) Some s = Some s.
Proof.
  destruct s as [|c s]; simpl; [done|]. intros Hc.
  destruct (c =? LF)%N eqn:Heq; [|done].
  apply N.eqb_eq in Heq. by subst.
Qed.

Lemma line_feeds_stop (s : str) :
  head s ≠ Some LF → re_match [(Lit LF, Plus)] s = None.
Proof.
  destruct s as [|c s]; simpl; [done|]. intros Hc.
  destruct (c =? LF)%N eqn:Heq; [|done].
  apply N.eqb_eq in Heq. by subst.
Qed.

(** [\s*\n+] on white space followed by other text: the white space is
    given back down to its last line feed. *)
Lemma space_run_match (w r : str) :
  all_space w → no_lead_space r →
  greedy Space (re_match [(Lit LF, Plus)]) (w ++ r)
  = (λ t, t ++ r) <$> after_last_LF w.
Proof.
  intros Hw Hr. induction Hw as [|c w Hc Hw IH].
  - simpl. destruct r as [|c r]; simpl; [done|].
    simpl in Hr. rewrite Hr. apply (line_feeds_stop (c :: r)).
    simpl. by intros [= ->].
  - rewrite <- app_comm_cons. cbn [greedy atom_match after_last_LF].
    rewrite Hc, IH.
    destruct (after_last_LF w) as [t|] eqn:Hlast; [done|].
    cbn [fmap option_fmap option_map re_match atom_match].
    destruct (c =? LF)%N; [|done].
    simpl. f_equal. apply greedy_LF_stop.
    by apply after_last_LF_None_head.
Qed.

Lemma blank_run_match (c : N) (w r : str) :
  all_space w → no_lead_space r →
  re_match blank_run (c :: w ++ r)
  = if (c =? LF)%N then (λ t, t ++ r) <$> after_last_LF w else None.
Proof.
  intros Hw Hr. unfold blank_run. cbn [re_match atom_match].
  destruct (c =? LF)%N; [|done]. by apply space_run_match.
Qed.

Lemma after_last_LF_suffix (w t : str) :
  after_last_LF w = Some t → ∃ p, w = p ++ t ∧ after_last_LF t = None.
Proof.
  revert t. induction w as [|c w IH]; intros t; simpl; [done|].
  destruct (after_last_LF w) as [t'|] eqn:Hl.
  - intros [= <-]. destruct (IH t' eq_refl) as (p & -> & Hn).
    by exists (c :: p).
  - destruct (c =? LF)%N; [|done]. intros [= <-]. by exists [c].
Qed.

Lemma after_last_LF_app (x y : str) : is_Some (after_last_LF (x ++ LF :: y)).
Proof.
  induction x as [|c x [t IH]]; simpl.
  - by destruct (after_last_LF y).
  - by rewrite IH.
Qed.

Lemma space_search_None (w : str) :
  after_last_LF w = None → space_search w = None.
Proof.
  induction w as [|c w IH]; simpl; [done|].
  destruct (after_last_LF w); [done|].
  destruct (c =? LF)%N; [done|]. intros _. by rewrite IH.
Qed.

Lemma space_search_parts (w p t : str) :
  space_search w = Some (p, t) →
  ∃ m, w = p ++ m ++ t ∧ after_last_LF t = None.
Proof.
  revert p. induction w as [|c w IH]; intros p; simpl; [done|].
  destruct (c =? LF)%N.
  - destruct (after_last_LF w) as [t'|] eqn:Hl; [|done].
    intros [= <- <-]. destruct (after_last_LF_suffix w t' Hl) as (q & -> & Hn).
    by exists (c :: q).
  - destruct (space_search w) as [[p' t']|]; [|done].
    intros [= <- <-]. destruct (IH p' eq_refl) as (m & -> & Hn).
    by exists m.
Qed.

(** White space with a line feed, white space and a line feed in it holds
    a match. *)
Lemma space_search_blank_line (x w y : str) :
  is_Some (space_search (x ++ LF :: w ++ LF :: y)).
Proof.
  induction x as [|c x [[p t] IH]]; simpl.
  - by destruct (after_last_LF_app w y) as [t ->].
  - destruct (c =? LF)%N; [|by rewrite IH].
    rewrite app_comm_cons, app_assoc.
    by destruct (after_last_LF_app (x ++ LF :: w) y) as [t' ->].
Qed.

(** The leftmost match in a text that starts with white space. *)
Lemma re_search_space (w r : str) :
  all_space w → no_lead_space r →
  re_search blank_run (w ++ r) =
  match space_search w with
  | Some (p, t) => Some (p, t ++ r)
  | None => (λ pr, (w ++ pr.1, pr.2)) <$> re_search blank_run r
  end.
Proof.
  intros Hw Hr. induction Hw as [|c w Hc Hw IH].
  - simpl. by destruct (re_search blank_run r) as [[p t]|].
  - rewrite <- app_comm_cons, re_search_cons, blank_run_match, IH by done.
    cbn [space_search]. destruct (c =? LF)%N.
    + destruct (after_last_LF w) as [t|] eqn:Hl; [done|].
      rewrite (space_search_None w Hl). simpl.
      by destruct (re_search blank_run r) as [[p t]|].
    + destruct (space_search w) as [[p t]|]; [done|]. simpl.
      by destruct (re_search blank_run r) as [[p t]|].
Qed.

(** *** A match before the end of the text *)

(** A match that starts in a text that ends with another character than
    white space does not depend on what follows the text. *)
Lemma blank_run_match_app (q t : str) :
  ends_in_ink q →
  re_match blank_run (q ++ t) = (λ rest, rest ++ t) <$> re_match blank_run q.
Proof.
  intros Hq. destruct q as [|c q].
  { destruct Hq as (s0 & c & Heq & _). by destruct s0. }
  destruct (decide (c = LF)) as [->|Hc].
  - assert (Hq' : ends_in_ink q).
    { apply (ends_in_ink_suffix [LF] q Hq). intros ->.
      apply (ends_in_ink_not_space [LF] Hq). by repeat constructor. }
    destruct (lstrip_decomp q) as (w & Hd & Hw).
    destruct (lstrip_ends_in_ink q Hq') as [Hink Hno].
    assert (Hne : lstrip q ≠ []).
    { intros He. rewrite He in Hink. destruct Hink as (s0 & c & Heq & _).
      by destruct s0. }
    rewrite Hd, <- app_comm_cons, <- app_assoc.
    rewrite (blank_run_match LF w (lstrip q ++ t))
      by (done || by apply no_lead_space_app).
    rewrite (blank_run_match LF w (lstrip q)) by done.
    change (LF =? LF)%N with true. cbv iota.
    destruct (after_last_LF w); simpl; [|done]. by rewrite app_assoc.
  - assert (Hn : ∀ s, re_match blank_run (c :: s) = None).
    { intros s. unfold blank_run. cbn [re_match atom_match].
      apply N.eqb_neq in Hc. by rewrite Hc. }
    rewrite <- app_comm_cons, !Hn. done.
Qed.

Lemma blank_run_rest_ink (q rest : str) :
  ends_in_ink q → re_match blank_run q = Some rest → ends_in_ink rest.
Proof.
  intros Hq Hm. destruct q as [|c q].
  { destruct Hq as (s0 & c & Heq & _). by destruct s0. }
  assert (Hq' : ends_in_ink q).
  { apply (ends_in_ink_suffix [c] q Hq). intros ->.
    unfold blank_run in Hm. cbn [re_match] in Hm.
    by destruct (atom_match (Lit LF) c). }
  destruct (lstrip_decomp q) as (w & Hd & Hw).
  destruct (lstrip_ends_in_ink q Hq') as [Hink Hno].
  rewrite Hd, (blank_run_match c w (lstrip q)) in Hm by done.
  destruct (c =? LF)%N; [|done].
  destruct (after_last_LF w) as [t|]; [|done].
  simpl in Hm. injection Hm as <-. by apply ends_in_ink_app.
Qed.

(** The leftmost match in a text followed by more text. *)
Lemma re_search_app (s t : str) :
  ends_in_ink s →
  re_search blank_run (s ++ t) =
  match re_search blank_run s with
  | Some (pre, rest) => Some (pre, rest ++ t)
  | None => (λ pr, (s ++ pr.1, pr.2)) <$> re_search blank_run t
  end.
Proof.
  induction s as [|c s IH]; intros Hs.
  { destruct Hs as (s0 & c & Heq & _). by destruct s0. }
  rewrite <- app_comm_cons, !re_search_cons.
  rewrite app_comm_cons, (blank_run_match_app (c :: s) t Hs).
  destruct (re_match blank_run (c :: s)) as [rest|] eqn:Hm; [done|].
  cbn [fmap option_fmap option_map].
  destruct s as [|c' s].
  - simpl. by destruct (re_search blank_run t) as [[p r]|].
  - rewrite IH by (by apply (ends_in_ink_suffix [c] (c' :: s) Hs)).
    destruct (re_search blank_run (c' :: s)) as [[pre rest]|]; [done|].
    by destruct (re_search blank_run t) as [[p r]|].
Qed.

Lemma re_search_rest_ink (s pre rest : str) :
  ends_in_ink s → re_search blank_run s = Some (pre, rest) →
  ends_in_ink rest ∧ length rest < length s.
Proof.
  intros Hs Hsearch.
  destruct (re_search_Some _ _ _ _ Hsearch) as (m & -> & Hm & _).
  pose proof (blank_run_shorter _ _ Hm) as Hlen.
  split; [|rewrite !length_app in *; lia].
  apply (blank_run_rest_ink (m ++ rest) rest); [|done].
  apply (ends_in_ink_suffix pre (m ++ rest) Hs).
  intros He. rewrite He in Hlen. simpl in Hlen. lia.
Qed.

Lemma re_split_unfold (s : str) :
  re_split blank_run s =
  match re_search blank_run s with
  | None => [s]
  | Some (pre, rest) => pre :: re_split blank_run rest
  end.
Proof.
  unfold re_split at 1. destruct s as [|c s]; [done|].
  cbn [length re_split_fuel].
  destruct (re_search blank_run (c :: s)) as [[pre rest]|] eqn:Hs; [|done].
  f_equal. apply re_split_fuel_enough.
  destruct (re_search_Some _ _ _ _ Hs) as (m & Heq & Hm & _).
  apply blank_run_shorter in Hm.
  apply (f_equal length) in Heq. rewrite !length_app in *. simpl in Heq. lia.
Qed.

(** The records of two texts with a blank line between them. *)
Lemma omap_parse_split_app (n : nat) (s sep r : str) :
  length s ≤ n → ends_in_ink s → all_space sep →
  is_Some (space_search sep) → no_lead_space r →
  omap parse_block (re_split blank_run (s ++ sep ++ r))
  = omap parse_block (re_split blank_run s)
    ++ omap parse_block (re_split blank_run r).
Proof.
  intros Hn Hs Hsep [[p t] Hss] Hr. revert s Hn Hs.
  induction n as [|n IH]; intros s Hn Hs.
  { destruct Hs as (s0 & c & -> & _). rewrite length_app in Hn.
    simpl in Hn. lia. }
  rewrite (re_split_unfold (s ++ sep ++ r)), (re_split_unfold s).
  rewrite (re_search_app s (sep ++ r) Hs).
  destruct (re_search blank_run s) as [[pre rest]|] eqn:Hsearch.
  - destruct (re_search_rest_ink s pre rest Hs Hsearch) as [Hink Hlen].
    cbn [omap list_omap]. rewrite (IH rest) by (lia || done).
    by destruct (parse_block pre).
  - rewrite (re_search_space sep r Hsep Hr), Hss.
    cbn [fmap option_fmap option_map fst snd omap list_omap].
    destruct (space_search_parts sep p t Hss) as (m & Heq & Hlast).
    assert (Hp : all_space p ∧ all_space t).
    { rewrite Heq in Hsep. apply Forall_app in Hsep as [Hp Hsep].
      apply Forall_app in Hsep as [_ Ht]. done. }
    destruct Hp as [Hp Ht].
    change (s ++ p) with ([] ++ s ++ p).
    rewrite (parse_block_space [] p s) by (done || constructor).
    rewrite (re_split_unfold (t ++ r)), (re_split_unfold r).
    rewrite (re_search_space t r Ht Hr), (space_search_None t Hlast).
    destruct (re_search blank_run r) as [[p2 r2]|];
      cbn [fmap option_fmap option_map fst snd omap list_omap].
    + replace (t ++ p2) with (t ++ p2 ++ []) by (by rewrite app_nil_r).
      rewrite (parse_block_space t [] p2) by (done || constructor).
      by destruct (parse_block s).
    + replace (t ++ r) with (t ++ r ++ []) by (by rewrite app_nil_r).
      rewrite (parse_block_space t [] r) by (done || constructor).
      by destruct (parse_block s).
Qed.

(** X17. Two documents put together with a blank line between them (a
    line feed, white space and a line feed) parse to the records of the
    first followed by the records of the second: no record is lost, added
    or changed at the seam, whatever white space the documents start and
    end with. *)
Theorem X17_documents_compose (D1 D2 w : str) :
  all_space w →
  parse_trade_text (D1 ++ LF :: w ++ LF :: D2)
  = parse_trade_text D1 ++ parse_trade_text D2.
Proof.
  intros Hw.
  assert (Hsep : all_space (LF :: w ++ [LF])).
  { constructor; [done|]. apply Forall_app. split; [done|]. by repeat constructor. }
  destruct (strip_decomp D1) as (a1 & b1 & H1 & Ha1 & Hb1).
  destruct (strip_decomp D2) as (a2 & b2 & H2 & Ha2 & Hb2).
  destruct (strip_shape D1) as [Hno1 Hink1].
  destruct (strip_shape D2) as [Hno2 Hink2].
  destruct (decide (strip D1 = [])) as [He1|Hne1].
  { assert (HD1 : all_space D1).
    { rewrite H1, He1. apply Forall_app. split; [done|]. by apply Forall_app. }
    rewrite (parse_trade_text_space D1 HD1). simpl.
    unfold parse_trade_text, trade_blocks.
    replace (D1 ++ LF :: w ++ LF :: D2) with ((D1 ++ LF :: w ++ [LF]) ++ D2)
      by (by rewrite <- !app_assoc, <- !app_comm_cons, <- !app_assoc).
    rewrite strip_app_space_l; [done|]. by apply Forall_app. }
  destruct (decide (strip D2 = [])) as [He2|Hne2].
  { assert (HD2 : all_space D2).
    { rewrite H2, He2. apply Forall_app. split; [done|]. by apply Forall_app. }
    rewrite (parse_trade_text_space D2 HD2), app_nil_r.
    unfold parse_trade_text, trade_blocks.
    rewrite strip_app_space_r; [done|].
    constructor; [done|]. apply Forall_app. split; [done|]. by constructor. }
  unfold parse_trade_text, trade_blocks.
  set (S1 := strip D1) in *. set (S2 := strip D2) in *.
  set (sep := b1 ++ LF :: w ++ LF :: a2).
  assert (Hall : all_space sep).
  { apply Forall_app. split; [done|]. constructor; [done|].
    apply Forall_app. split; [done|]. by constructor. }
  assert (Hstrip : strip (D1 ++ LF :: w ++ LF :: D2) = S1 ++ sep ++ S2).
  { rewrite H1 at 1. rewrite H2 at 1.
    replace ((a1 ++ S1 ++ b1) ++ LF :: w ++ LF :: a2 ++ S2 ++ b2)
      with (a1 ++ (S1 ++ sep ++ S2) ++ b2).
    2:{ unfold sep. by rewrite <- !app_assoc, <- !app_comm_cons, <- !app_assoc. }
    rewrite strip_app_space_l, strip_app_space_r by done.
    apply strip_id; [by apply no_lead_space_app|].
    rewrite app_assoc. by apply ends_in_ink_app, Hink2. }
  rewrite Hstrip.
  apply (omap_parse_split_app (length S1)); try done.
  - by apply Hink1.
  - apply space_search_blank_line.
Qed.

Lemma X17_documents_compose_witness :
  all_space [32%N]
  ∧ parse_trade_text (block_in_order ++ LF :: [32%N] ++ LF :: block_no_type)
    = parse_trade_text block_in_order ++ parse_trade_text block_no_type.
Proof.
  assert (H : all_space [32%N]) by (by repeat constructor).
  split; [exact H|].
  exact (X17_documents_compose block_in_order block_no_type [32%N] H).
Defined.
